(** * LITD tag cache: a shallow embedding of [IndexedDBCache]

    The development follows the class [IndexedDBCache] of the LITD
    userscript: key derivation ([generateKey]), the response compressor
    ([parseTagData]), the record store with its [get] / [set] / [delete] /
    [clearAll] methods, the eviction sweep ([cleanupOldEntries]) and the
    statistics scan ([getStats]).

    JavaScript strings are sequences of UTF-16 code units, modelled as
    [list Z]; numbers that the code keeps integral are modelled as [Z]. *)

From Stdlib Require Import ZArith List String Ascii Lia DecimalString.
From Stdlib Require DecimalPos.
From Stdlib Require DecimalFacts.
From stdpp Require Import gmap list sorting.

Local Open Scope Z_scope.

(** ** JavaScript strings and numbers *)

Abbreviation jsstring := (list Z).

(** Code units of an ASCII literal. *)
Definition js (s : string) : jsstring :=
  map (fun a : ascii => Z.of_N (N_of_ascii a)) (list_ascii_of_string s).

(** [Number.prototype.toString] (radix 10) on an integral number below
    1e21: an optional minus sign and the decimal digits. *)
Definition Number_toString (n : Z) : jsstring :=
  js (NilZero.string_of_int (Z.to_int n)).

(** [ToInt32] of an integral number: reduction modulo 2^32 into
    [-2^31, 2^31). *)
Definition ToInt32 (x : Z) : Z := (x + 2 ^ 31) mod 2 ^ 32 - 2 ^ 31.

(** [x << k] *)
Definition js_shl (x k : Z) : Z := ToInt32 (Z.shiftl (ToInt32 x) (Z.land k 31)).

(** [x & y] *)
Definition js_band (x y : Z) : Z := Z.land (ToInt32 x) (ToInt32 y).

Definition is_decimal_digit (c : Z) : Prop := 48 <= c <= 57.

(** ** Configuration *)

Record Config := mkConfig {
  CACHE_EXPIRY_MS : Z;
  MAX_CACHE_SIZE : Z
}.

(** The constants of the script: 7 days, 5000 entries. *)
Definition CONFIG : Config :=
  {| CACHE_EXPIRY_MS := 7 * 24 * 60 * 60 * 1000; MAX_CACHE_SIZE := 5000 |}.

(** ** generateKey *)

(** The body of the [for] loop over [url.charCodeAt(i)], [hash] being
    the loop-carried variable. *)
Fixpoint generateKey_loop (url : jsstring) (hash : Z) : Z :=
  match url with
  | [] => hash
  | char :: rest =>
      let hash := (js_shl hash 5 - hash) + char in
      let hash := js_band hash hash in
      generateKey_loop rest hash
  end.

Definition generateKey (url : jsstring) : jsstring :=
  js "litd_" ++ Number_toString (Z.abs (generateKey_loop url 0)).

(** The polynomial the rolling hash computes, before any wrap-around. *)
Fixpoint poly31 (url : jsstring) (acc : Z) : Z :=
  match url with
  | [] => acc
  | char :: rest => poly31 rest (31 * acc + char)
  end.

(** ** Whitespace: the class [\s] of regular expressions, which is also
    what [String.prototype.trim] strips (WhiteSpace and LineTerminator). *)

Definition is_whitespace (c : Z) : bool :=
  (c =? 9) || (c =? 10) || (c =? 11) || (c =? 12) || (c =? 13) || (c =? 32)
  || (c =? 160) || (c =? 5760) || ((8192 <=? c) && (c <=? 8202))
  || (c =? 8232) || (c =? 8233) || (c =? 8239) || (c =? 8287)
  || (c =? 12288) || (c =? 65279).

(** [s.replace(/\s+/g, '_')]: every maximal run of whitespace becomes one
    underscore. [in_run] tells that the previous code unit was whitespace. *)
Fixpoint replace_ws_runs (in_run : bool) (s : jsstring) : jsstring :=
  match s with
  | [] => []
  | c :: rest =>
      if is_whitespace c
      then (if in_run then replace_ws_runs true rest
            else 95 :: replace_ws_runs true rest)
      else c :: replace_ws_runs false rest
  end.

Fixpoint trimStart (s : jsstring) : jsstring :=
  match s with
  | [] => []
  | c :: rest => if is_whitespace c then trimStart rest else s
  end.

Definition trimEnd (s : jsstring) : jsstring := rev (trimStart (rev s)).

(** [s.trim()] *)
Definition trim (s : jsstring) : jsstring := trimEnd (trimStart s).

(** [s.padStart(2, '0')] *)
Definition padStart2 (s : jsstring) : jsstring :=
  repeat 48 (2 - length s)%nat ++ s.

(** ** Data model *)

Record TagEntry := mkTagEntry {
  name : jsstring;
  confidence : jsstring
}.

Record CacheRecord := mkCacheRecord {
  key : jsstring;
  tags : list TagEntry;
  timestamp : Z;
  timestampFormatted : jsstring;
  size : Z
}.

(** The object store [tagCache], created with [keyPath: 'key']. *)
Abbreviation store := (gmap jsstring CacheRecord).

(** What [put] maintains: a record is filed under its own [key]. *)
Definition keyPath_ok (st : store) : Prop :=
  map_Forall (fun k record => key record = k) st.

(** ** The host: the browser facilities the cache calls *)

(** A table row as the compressor sees it: the [textContent] of the first
    element matching the tag-link selector and of the first one matching
    the confidence-cell selector, [None] where [querySelector] is null. *)
Record Row := mkRow {
  row_link : option jsstring;
  row_confidence : option jsstring
}.

(** [new DOMParser().parseFromString(html, "text/html")] followed by
    [querySelectorAll("tbody tr")]: the rows in document order, or an
    exception. *)
Inductive ParseResult :=
| ParseThrows
| ParsedRows (rows : list Row).

Record Host := mkHost {
  DOMParser_rows : jsstring -> ParseResult;
  (* the local-time getters of [new Date(timestamp)] *)
  Date_getDate : Z -> Z;
  Date_getMonth : Z -> Z;
  Date_getFullYear : Z -> Z;
  Date_getHours : Z -> Z;
  Date_getMinutes : Z -> Z
}.

(** ** JSON.stringify and Blob size, for [calculateSize] *)

Definition hex_digit (d : Z) : Z := if d <? 10 then 48 + d else 87 + d.

(** [\uXXXX] with lowercase hexadecimal digits *)
Definition unicode_escape (c : Z) : jsstring :=
  js "\u" ++ [hex_digit (c / 4096 mod 16); hex_digit (c / 256 mod 16);
              hex_digit (c / 16 mod 16); hex_digit (c mod 16)].

Definition is_high_surrogate (c : Z) : bool := (55296 <=? c) && (c <=? 56319).
Definition is_low_surrogate (c : Z) : bool := (56320 <=? c) && (c <=? 57343).

(** The characters between the quotes of [QuoteJSONString]. *)
Fixpoint json_escape (s : jsstring) : jsstring :=
  match s with
  | [] => []
  | c :: rest =>
      if c =? 8 then js "\b" ++ json_escape rest
      else if c =? 9 then js "\t" ++ json_escape rest
      else if c =? 10 then js "\n" ++ json_escape rest
      else if c =? 12 then js "\f" ++ json_escape rest
      else if c =? 13 then js "\r" ++ json_escape rest
      else if c =? 34 then [92; 34] ++ json_escape rest
      else if c =? 92 then [92; 92] ++ json_escape rest
      else if c <? 32 then unicode_escape c ++ json_escape rest
      else if is_high_surrogate c then
        match rest with
        | d :: rest' =>
            if is_low_surrogate d then c :: d :: json_escape rest'
            else unicode_escape c ++ json_escape rest
        | [] => unicode_escape c
        end
      else if is_low_surrogate c then unicode_escape c ++ json_escape rest
      else c :: json_escape rest
  end.

Definition json_string (s : jsstring) : jsstring :=
  [34] ++ json_escape s ++ [34].

Definition json_tag (t : TagEntry) : jsstring :=
  js "{" ++ json_string (js "name") ++ js ":" ++ json_string (name t)
  ++ js "," ++ json_string (js "confidence") ++ js ":"
  ++ json_string (confidence t) ++ js "}".

Fixpoint json_join (items : list jsstring) : jsstring :=
  match items with
  | [] => []
  | [x] => x
  | x :: rest => x ++ js "," ++ json_join rest
  end.

(** [JSON.stringify(tags)] *)
Definition JSON_stringify (tags : list TagEntry) : jsstring :=
  js "[" ++ json_join (map json_tag tags) ++ js "]".

(** [new Blob([s]).size]: the length of the UTF-8 encoding of [s]. *)
Fixpoint Blob_size (s : jsstring) : Z :=
  match s with
  | [] => 0
  | c :: rest =>
      if c <? 128 then 1 + Blob_size rest
      else if c <? 2048 then 2 + Blob_size rest
      else if is_high_surrogate c then
        match rest with
        | d :: rest' =>
            if is_low_surrogate d then 4 + Blob_size rest'
            else 3 + Blob_size rest
        | [] => 3
        end
      else 3 + Blob_size rest
  end.

Definition calculateSize (data : list TagEntry) : Z :=
  Blob_size (JSON_stringify data).

(** ** Promises and storage faults *)

Inductive DbError := OpenError | QuotaExceededError | InvalidStateError | UnknownError.

(** How a promise seen by the caller settles. *)
Inductive settled (A : Type) :=
| Fulfilled (v : A)
| Rejected (e : DbError).
Arguments Fulfilled {A} v.
Arguments Rejected {A} e.

(** What the storage backend does during one method call: the database
    was not opened and [initPromise] is rejected; or the executor of the
    promise throws (opening the transaction, creating the request); or the
    request fails and fires [request.onerror]; or none of these. *)
Inductive backend :=
| Healthy
| InitRejected (e : DbError)
| ExecutorThrows (e : DbError)
| RequestFails (e : DbError).

(** [new Promise((resolve, reject) => { .. })] around one request.
    [on_error] is what [request.onerror] does with the promise,
    [on_success] the effect of [request.onsuccess]. An exception in the
    executor rejects the promise. *)
Definition new_Promise {A} (b : backend) (on_error : DbError -> settled A)
    (on_success : store -> settled A * store) (st : store)
  : settled A * store :=
  match b with
  | ExecutorThrows e => (Rejected e, st)
  | RequestFails e => (on_error e, st)
  | _ => on_success st
  end.

(** [try { await this.initPromise; body } catch (error) { .. }] in an
    async method, where [body] ends in [return] of a value or of a promise.
    A rejected [initPromise] throws at the [await] and the [catch] block
    runs, the method resolving to [on_catch]. A promise that [body]
    returns is not awaited: it settles the method's promise as it is, and
    its rejection does not pass through the [catch]. *)
Definition try_await_init {A} (b : backend) (on_catch : A)
    (body : store -> settled A * store) (st : store) : settled A * store :=
  match b with
  | InitRejected _ => (Fulfilled on_catch, st)
  | _ => body st
  end.

(** The shape shared by the methods that do nothing between the [await]
    and the promise. *)
Definition method {A} (b : backend) (on_catch : A)
    (on_error : DbError -> settled A)
    (on_success : store -> settled A * store) (st : store)
  : settled A * store :=
  try_await_init b on_catch (new_Promise b on_error on_success) st.

(** ** Cursors *)

(** The order of IndexedDB on string keys: code unit by code unit. *)
Fixpoint key_leb (a b : jsstring) : bool :=
  match a, b with
  | [], _ => true
  | _ :: _, [] => false
  | x :: a', y :: b' =>
      if x <? y then true else if x =? y then key_leb a' b' else false
  end.

Definition primary_le (e1 e2 : jsstring * CacheRecord) : Prop :=
  key_leb e1.1 e2.1 = true.

(** Entries of the index [timestamp]: by timestamp, then by primary key. *)
Definition index_le (e1 e2 : jsstring * CacheRecord) : Prop :=
  timestamp e1.2 < timestamp e2.2
  \/ (timestamp e1.2 = timestamp e2.2 /\ key_leb e1.1 e2.1 = true).

#[global] Instance primary_le_dec e1 e2 : Decision (primary_le e1 e2).
Proof. unfold primary_le. apply _. Defined.

#[global] Instance index_le_dec e1 e2 : Decision (index_le e1 e2).
Proof. unfold index_le. apply _. Defined.

(** [store.openCursor()]: all records, by primary key. *)
Definition openCursor (st : store) : list CacheRecord :=
  (merge_sort primary_le (map_to_list st)).*2.

(** [store.index('timestamp').openCursor(null, 'next')]: all records,
    oldest first. *)
Definition index_openCursor (st : store) : list CacheRecord :=
  (merge_sort index_le (map_to_list st)).*2.

(** ** Values returned by [getStats] *)

Inductive jsval :=
| JNumber (n : Z)
| JString (s : jsstring).

(** An object literal: its properties in creation order. *)
Abbreviation jsobject := (list (jsstring * jsval)).

Fixpoint get_property (o : jsobject) (p : jsstring) : option jsval :=
  match o with
  | [] => None
  | (q, v) :: rest => if decide (q = p) then Some v else get_property rest p
  end.

(** [x || 0] on a number *)
Definition or_zero (x : Z) : Z := if x =? 0 then 0 else x.

(** [(num / den).toFixed(2)] for a quotient that is exact in binary
    floating point ([den] a positive power of two, [num] a safe integer):
    the integer [n] closest to a hundred times the quotient, the larger
    one on a tie, printed with two decimals. *)
Definition toFixed2_hundredths (num den : Z) : Z :=
  (200 * Z.abs num + den) / (2 * den).

Definition toFixed2 (num den : Z) : jsstring :=
  let s := if num <? 0 then js "-" else [] in
  let m := Number_toString (toFixed2_hundredths num den) in
  let m := repeat 48 (3 - length m)%nat ++ m in
  s ++ take (length m - 2)%nat m ++ js "." ++ drop (length m - 2)%nat m.

Definition MS_PER_DAY : Z := 1000 * 60 * 60 * 24.

Section IndexedDBCache.

Variable cfg : Config.
Variable host : Host.

(** ** parseTagData *)

(** The arrow function given to [rows.map]. *)
Definition row_to_tag (row : Row) : option TagEntry :=
  match row_link row, row_confidence row with
  | Some link, Some confidence =>
      Some {| name := trim (replace_ws_runs false link);
              confidence := trim confidence |}
  | _, _ => None
  end.

(** [.filter(Boolean)] on an array of objects and nulls *)
Definition filter_Boolean {A} (l : list (option A)) : list A := omap id l.

Definition parseTagData (htmlString : jsstring) : list TagEntry :=
  match DOMParser_rows host htmlString with
  | ParsedRows rows => filter_Boolean (map row_to_tag rows)
  | ParseThrows => []
  end.

(** ** formatTimestamp *)

Definition formatTimestamp (timestamp : Z) : jsstring :=
  let day := padStart2 (Number_toString (Date_getDate host timestamp)) in
  let month := padStart2 (Number_toString (Date_getMonth host timestamp + 1)) in
  let year := Number_toString (Date_getFullYear host timestamp) in
  let hours := padStart2 (Number_toString (Date_getHours host timestamp)) in
  let minutes := padStart2 (Number_toString (Date_getMinutes host timestamp)) in
  day ++ js "." ++ month ++ js "." ++ year ++ js " " ++ hours ++ js ":" ++ minutes.

(** ** delete *)

Definition delete (b : backend) (key : jsstring) (st : store)
  : settled unit * store :=
  method b tt (fun _ => Fulfilled tt)
    (fun st => (Fulfilled tt, base.delete key st)) st.

(** ** get

    [now] is the reading of [Date.now()] in [request.onsuccess]; [bd] is
    the backend condition met by the [this.delete(key)] that an expired
    record triggers, whose promise is dropped. *)
Definition expired (now : Z) (record : CacheRecord) : bool :=
  now - timestamp record >? CACHE_EXPIRY_MS cfg.

Definition get (b bd : backend) (now : Z) (key : jsstring) (st : store)
  : settled (option (list TagEntry)) * store :=
  method b None (fun _ => Fulfilled None)
    (fun st =>
       match st !! key with
       | None => (Fulfilled None, st)
       | Some result =>
           if expired now result
           then (Fulfilled None, (delete bd key st).2)
           else (Fulfilled (Some (tags result)), st)
       end) st.

(** ** cleanupOldEntries *)

(** The callback of [allEntries.forEach]; [now] reads [Date.now()] at
    each record, [index] counts from 0. *)
Fixpoint cleanup_forEach (now : nat -> Z) (totalCount : Z) (index : nat)
    (allEntries : list CacheRecord) (toDelete : list jsstring)
  : list jsstring :=
  match allEntries with
  | [] => toDelete
  | record :: rest =>
      let toDelete :=
        if expired (now index) record then toDelete ++ [key record]
        else if (totalCount >? MAX_CACHE_SIZE cfg)
                && (Z.of_nat index <? totalCount - MAX_CACHE_SIZE cfg)
             then toDelete ++ [key record]
             else toDelete in
      cleanup_forEach now totalCount (S index) rest toDelete
  end.

(** The keys the sweep marks, given the snapshot [allEntries]. *)
Definition cleanup_toDelete (now : nat -> Z) (allEntries : list CacheRecord)
  : list jsstring :=
  cleanup_forEach now (Z.of_nat (length allEntries)) 0 allEntries [].

(** [toDelete.forEach(key => store.delete(key))] *)
Definition delete_all (toDelete : list jsstring) (st : store) : store :=
  foldl (fun st key => base.delete key st) st toDelete.

Definition cleanupOldEntries (b : backend) (now : nat -> Z) (st : store)
  : settled unit * store :=
  method b tt (fun _ => Fulfilled tt)
    (fun st =>
       (Fulfilled tt, delete_all (cleanup_toDelete now (index_openCursor st)) st))
    st.

(** ** set

    [bc] and [nows] are the backend condition and the clock readings of
    the sweep started from [transaction.oncomplete]. *)
Definition new_record (now : Z) (key : jsstring) (tags : list TagEntry)
  : CacheRecord :=
  {| key := key; tags := tags; timestamp := now;
     timestampFormatted := formatTimestamp now;
     size := calculateSize tags |}.

(** The store once the [put] request has succeeded. *)
Definition store_put (record : CacheRecord) (st : store) : store :=
  <[key record := record]> st.

Definition set (b bc : backend) (now : Z) (nows : nat -> Z)
    (key htmlResponse : jsstring) (st : store) : settled unit * store :=
  try_await_init b tt
    (fun st =>
       let tags := parseTagData htmlResponse in
       if (length tags =? 0)%nat then (Fulfilled tt, st)
       else
         new_Promise b (fun e => Rejected e)
           (fun st =>
              let record := new_record now key tags in
              (Fulfilled tt,
               (cleanupOldEntries bc nows (store_put record st)).2))
           st)
    st.

(** ** getStats *)

(** The cursor loop; the three accumulators are the [let] variables. *)
Fixpoint getStats_scan (cursor : list CacheRecord)
    (totalEntries totalSize oldestEntry : Z) : Z * Z * Z :=
  match cursor with
  | [] => (totalEntries, totalSize, oldestEntry)
  | record :: rest =>
      getStats_scan rest (totalEntries + 1)
        (totalSize + or_zero (size record))
        (Z.min oldestEntry (timestamp record))
  end.

Definition stats_fallback : jsobject :=
  [(js "entries", JNumber 0); (js "totalSizeKB", JNumber 0);
   (js "oldestEntryAge", JNumber 0)].

(** [now0] is read when the promise is created, [now1] when the cursor is
    exhausted. *)
Definition getStats (b : backend) (now0 now1 : Z) (st : store)
  : settled jsobject * store :=
  method b stats_fallback (fun _ => Fulfilled stats_fallback)
    (fun st =>
       let '(totalEntries, totalSize, oldestEntry) :=
         getStats_scan (openCursor st) 0 0 now0 in
       (Fulfilled
          [(js "entries", JNumber totalEntries);
           (js "totalSizeKB", JString (toFixed2 totalSize 1024));
           (js "oldestEntryAge", JNumber ((now1 - oldestEntry) / MS_PER_DAY))],
        st)) st.

(** ** clearAll *)

Definition clearAll (b : backend) (st : store) : settled unit * store :=
  method b tt (fun _ => Fulfilled tt) (fun _ => (Fulfilled tt, ∅)) st.

(** ** The cache as a state machine *)

Inductive call :=
| CallGet (b bd : backend) (now : Z) (key : jsstring)
| CallSet (b bc : backend) (now : Z) (nows : nat -> Z) (key html : jsstring)
| CallDelete (b : backend) (key : jsstring)
| CallCleanup (b : backend) (nows : nat -> Z)
| CallGetStats (b : backend) (now0 now1 : Z)
| CallClearAll (b : backend).

Definition run (c : call) (st : store) : store :=
  match c with
  | CallGet b bd now key => (get b bd now key st).2
  | CallSet b bc now nows key html => (set b bc now nows key html st).2
  | CallDelete b key => (delete b key st).2
  | CallCleanup b nows => (cleanupOldEntries b nows st).2
  | CallGetStats b now0 now1 => (getStats b now0 now1 st).2
  | CallClearAll b => (clearAll b st).2
  end.

(** The stores the script can be in: [onupgradeneeded] creates the object
    store empty, and every later change is made by one of the methods. *)
Inductive reachable : store -> Prop :=
| reachable_init : reachable ∅
| reachable_step c st : reachable st -> reachable (run c st).

End IndexedDBCache.

(** ** Predicates used in the statements *)

Definition head_not_ws (s : jsstring) : Prop :=
  match s with
  | [] => True
  | c :: _ => is_whitespace c = false
  end.

Definition no_ws (s : jsstring) : Prop := Forall (fun c => is_whitespace c = false) s.
Definition all_ws (s : jsstring) : Prop := Forall (fun c => is_whitespace c = true) s.

(** A row that yields an entry: both selectors matched. *)
Definition has_both (row : Row) : bool :=
  match row_link row, row_confidence row with
  | Some _, Some _ => true
  | _, _ => false
  end.

(** A text written as words separated by runs of whitespace: the words
    alternate with the separators, and the text begins and ends with a
    word. *)
Fixpoint interleave (words seps : list jsstring) : jsstring :=
  match words, seps with
  | [], _ => []
  | word :: _, [] => word
  | word :: words', sep :: seps' => word ++ sep ++ interleave words' seps'
  end.

(** [text] consists of the non-empty, whitespace-free [words], separated
    by the non-empty runs of whitespace [seps] (no words at all for the
    empty text). Such a text neither starts nor ends with whitespace. *)
Definition separated_words (text : jsstring) (words seps : list jsstring) : Prop :=
  Forall (fun word => no_ws word /\ word <> []) words
  /\ Forall (fun sep => all_ws sep /\ sep <> []) seps
  /\ length seps = pred (length words)
  /\ text = interleave words seps.

(** The words joined by single underscores. *)
Fixpoint join_underscore (words : list jsstring) : jsstring :=
  match words with
  | [] => []
  | word :: rest =>
      match rest with
      | [] => word
      | _ :: _ => word ++ [95] ++ join_underscore rest
      end
  end.

(** The entry the specification asks of a row whose link reads [link] and
    whose confidence cell reads [cell]: when the link text is words
    separated by whitespace, the name is the words joined by single
    underscores; the confidence is the cell text without the whitespace
    before and after it. Nothing is said of the name for a link text
    that starts or ends with whitespace. *)
Definition normalised_entry (link cell : jsstring) (tag : TagEntry) : Prop :=
  (forall words seps,
     separated_words link words seps -> name tag = join_underscore words)
  /\ confidence tag = trim cell
  /\ (exists pre post,
        cell = pre ++ confidence tag ++ post /\ all_ws pre /\ all_ws post
        /\ head_not_ws (confidence tag)
        /\ head_not_ws (rev (confidence tag))).

(** The eviction rule in the words of the specification, for the record
    at position [index] of a snapshot of [totalCount] records read at time
    [now]: its age exceeds the expiry window, or it is one of the first
    [max 0 (totalCount - maxEntries)] records. *)
Definition evicted_by_rule (cfg : Config) (now totalCount : Z) (index : nat)
    (record : CacheRecord) : Prop :=
  now - timestamp record > CACHE_EXPIRY_MS cfg
  \/ Z.of_nat index < Z.max 0 (totalCount - MAX_CACHE_SIZE cfg).

(** No stored record has an empty tag list. *)
Definition tags_nonempty (st : store) : Prop :=
  map_Forall (fun (_ : jsstring) record => tags record <> []) st.

(** The stored records, in no particular order. *)
Definition stored_records (st : store) : list CacheRecord := (map_to_list st).*2.

(** The sum of the recorded sizes. *)
Definition total_size (st : store) : Z := foldr Z.add 0 (size <$> stored_records st).

(** The least of [now0] and the stored timestamps. *)
Definition oldest_timestamp (now0 : Z) (st : store) : Z :=
  foldr Z.min now0 (timestamp <$> stored_records st).

(** The number a string of decimal digits denotes. *)
Definition decimal_value (s : jsstring) : Z :=
  foldl (fun acc c => 10 * acc + (c - 48)) 0 s.

(** The number of hundredths that a string [d...d.dd] denotes: its digits
    read without the point. *)
Definition hundredths_of_fixed2 (s : jsstring) : Z :=
  decimal_value (List.filter (fun c => negb (c =? 46)) s).

(** ** A concrete host, to run the model on examples *)

(** UTC calendar getters (days since the epoch to a civil date). *)
Definition utc_civil (timestamp : Z) : Z * Z * Z :=
  let z := timestamp / MS_PER_DAY + 719468 in
  let era := z / 146097 in
  let doe := z - era * 146097 in
  let yoe := (doe - doe / 1460 + doe / 36524 - doe / 146096) / 365 in
  let doy := doe - (365 * yoe + yoe / 4 - yoe / 100) in
  let mp := (5 * doy + 2) / 153 in
  let d := doy - (153 * mp + 2) / 5 + 1 in
  let m := if mp <? 10 then mp + 3 else mp - 9 in
  (yoe + era * 400 + (if m <=? 2 then 1 else 0), m, d).

(** A response of the tagging service with four rows: the second has
    padded confidence text, the third lacks the confidence cell, the
    fourth has an empty link. *)
Definition sample_html : jsstring :=
  js "<table><tbody><tr><td><a class='text-sky-600 hover:text-sky-500 mr-4'>long hair</a></td><td class='text-gray-400 text-right'>98%</td></tr><tr><td><a class='text-sky-600 hover:text-sky-500 mr-4'>1girl</a></td><td class='text-gray-400 text-right'> 87% </td></tr><tr><td><a class='text-sky-600 hover:text-sky-500 mr-4'>solo</a></td><td>55%</td></tr><tr><td><a class='text-sky-600 hover:text-sky-500 mr-4'></a></td><td class='text-gray-400 text-right'>12%</td></tr></tbody></table>".

Definition sample_rows : list Row :=
  [ mkRow (Some (js "long hair")) (Some (js "98%"));
    mkRow (Some (js "1girl")) (Some (js " 87% "));
    mkRow (Some (js "solo")) None;
    mkRow (Some []) (Some (js "12%")) ].

(** A table-driven stand-in for the browser's parser: it knows
    [sample_html]; any other document is taken to have no table rows. *)
Definition sample_DOMParser_rows (html : jsstring) : ParseResult :=
  if decide (html = sample_html) then ParsedRows sample_rows else ParsedRows [].

Definition sample_host : Host :=
  {| DOMParser_rows := sample_DOMParser_rows;
     Date_getDate := fun t => (utc_civil t).2;
     Date_getMonth := fun t => (utc_civil t).1.2 - 1;
     Date_getFullYear := fun t => (utc_civil t).1.1;
     Date_getHours := fun t => t / 3600000 mod 24;
     Date_getMinutes := fun t => t / 60000 mod 60 |}.

(** A document without any row. *)
Definition error_html : jsstring := js "<p>Internal Server Error</p>".

(** ** A concrete store: the scenario of three writes with room for two *)

Definition scenario_cfg : Config :=
  {| CACHE_EXPIRY_MS := CACHE_EXPIRY_MS CONFIG; MAX_CACHE_SIZE := 2 |}.

Definition scenario_tags : list TagEntry := parseTagData sample_host sample_html.

Definition record_A : CacheRecord := new_record sample_host 0 (js "A") scenario_tags.
Definition record_B : CacheRecord := new_record sample_host 10 (js "B") scenario_tags.
Definition record_C : CacheRecord := new_record sample_host 20 (js "C") scenario_tags.

(** The store after the three puts, before the sweep of the last one. *)
Definition scenario_store : store :=
  store_put record_C (store_put record_B (store_put record_A ∅)).

Definition sample_url : jsstring :=
  js "https://cdn.donmai.us/original/ab/cd/abcd.jpg".

(** ** Measures used in the statements about sizes *)

(** The code units of all names and confidence texts of a tag list. *)
Definition tags_code_units (tags : list TagEntry) : Z :=
  foldr (fun t acc => Z.of_nat (length (name t) + length (confidence t)) + acc)
    0 tags.

(** Printable ASCII other than the double quote and the backslash: what
    JSON writes as it is, one byte each. *)
Definition plain_ascii (c : Z) : Prop := 32 <= c <= 126 /\ c <> 34 /\ c <> 92.

Definition starts_without_low_surrogate (s : jsstring) : Prop :=
  match s with
  | [] => True
  | d :: _ => is_low_surrogate d = false
  end.

(** ** TagManager and the rendering of suggestions *)

(** [s.split(/\s+/)]: the pieces between the runs of whitespace, an empty
    piece before a leading run and after a trailing one. [piece] is the
    piece being read, [in_run] tells that the previous code unit was
    whitespace. *)
Fixpoint split_ws_runs (in_run : bool) (piece : jsstring) (s : jsstring)
  : list jsstring :=
  match s with
  | [] => [piece]
  | c :: rest =>
      if is_whitespace c
      then (if in_run then split_ws_runs true piece rest
            else piece :: split_ws_runs true [] rest)
      else split_ws_runs false (piece ++ [c]) rest
  end.

(** [.filter(Boolean)] on an array of strings *)
Definition filter_nonempty (l : list jsstring) : list jsstring :=
  List.filter (fun s => negb (length s =? 0)%nat) l.

(** [TagManager.getCurrentTags]. [textarea] is the value of the tag input,
    [None] when the element is not on the page. *)
Definition getCurrentTags (textarea : option jsstring) : list jsstring :=
  match textarea with
  | None => []
  | Some [] => []
  | Some value => filter_nonempty (split_ws_runs false [] (trim value))
  end.

(** [array.includes(x)] on strings *)
Definition includes (l : list jsstring) (x : jsstring) : bool :=
  bool_decide (x ∈ l).

(** [encodeURIComponent]: the characters it leaves as they are. *)
Definition uri_unreserved (c : Z) : bool :=
  ((48 <=? c) && (c <=? 57)) || ((65 <=? c) && (c <=? 90))
  || ((97 <=? c) && (c <=? 122))
  || (c =? 45) || (c =? 95) || (c =? 46) || (c =? 33) || (c =? 126)
  || (c =? 42) || (c =? 39) || (c =? 40) || (c =? 41).

Definition HEX_digit (d : Z) : Z := if d <? 10 then 48 + d else 55 + d.

(** [%XX] for one octet *)
Definition percent_octet (b : Z) : jsstring :=
  [37; HEX_digit (b / 16); HEX_digit (b mod 16)].

(** The UTF-8 octets of a code point. *)
Definition utf8_octets (cp : Z) : list Z :=
  if cp <? 128 then [cp]
  else if cp <? 2048 then [192 + cp / 64; 128 + cp mod 64]
  else if cp <? 65536
       then [224 + cp / 4096; 128 + cp / 64 mod 64; 128 + cp mod 64]
       else [240 + cp / 262144; 128 + cp / 4096 mod 64;
             128 + cp / 64 mod 64; 128 + cp mod 64].

Definition percent_encode (cp : Z) : jsstring :=
  concat (map percent_octet (utf8_octets cp)).

(** [encodeURIComponent(s)]; [None] stands for the [URIError] thrown on
    a surrogate that is not part of a pair. *)
Fixpoint encodeURIComponent (s : jsstring) : option jsstring :=
  match s with
  | [] => Some []
  | c :: rest =>
      if uri_unreserved c then cons c <$> encodeURIComponent rest
      else if is_low_surrogate c then None
      else if is_high_surrogate c then
        match rest with
        | d :: rest' =>
            if is_low_surrogate d
            then app (percent_encode
                        (65536 + (c - 55296) * 1024 + (d - 56320)))
                   <$> encodeURIComponent rest'
            else None
        | [] => None
        end
      else app (percent_encode c) <$> encodeURIComponent rest
  end.

(** The text of a template literal, written with [~] for the double quote
    and [|] for the line feed. *)
Definition tpl (s : string) : jsstring :=
  map (fun c => if c =? 126 then 34 else if c =? 124 then 10 else c) (js s).

(** [TagManager.createTagItemFromData]; [None] when [encodeURIComponent]
    throws. *)
Definition createTagItemFromData (tagData : TagEntry)
    (currentTags : list jsstring) : option jsstring :=
  let isChecked := includes currentTags (name tagData) in
  encoded ← encodeURIComponent (name tagData);
  Some (tpl "|        <li class=~flex items-center gap-1 w-fit leading-none~>|          <input type=~checkbox~ tabindex=~-1~ "
        ++ (if isChecked then js "checked" else js "")
        ++ tpl ">|          <span class=~related-tag~>|            <a class=~tag-type-0~|               data-tag-name=~"
        ++ name tagData
        ++ tpl "~|               href=~/posts?tags="
        ++ encoded
        ++ tpl "~>|              "
        ++ name tagData
        ++ tpl "|              <span class=~text-muted text-xs~>"
        ++ confidence tagData
        ++ tpl "</span>|            </a>|          </span>|        </li>").

(** [TagManager.createTagItem]; the outer [None] when
    [encodeURIComponent] throws, [Some None] for the null of a row that
    lacks the link or the confidence cell. *)
Definition createTagItem (row : Row) (currentTags : list jsstring)
  : option (option jsstring) :=
  match row_link row, row_confidence row with
  | Some link, Some confidence =>
      let tagName := trim (replace_ws_runs false link) in
      let confidenceText := trim confidence in
      let isChecked := includes currentTags tagName in
      encoded ← encodeURIComponent tagName;
      Some (Some
        (tpl "|        <li class=~flex items-center gap-1 w-fit leading-none~>|          <input type=~checkbox~ tabindex=~-1~ "
         ++ (if isChecked then js "checked" else js "")
         ++ tpl ">|          <span class=~related-tag~>|            <a class=~tag-type-0~|               data-tag-name=~"
         ++ tagName
         ++ tpl "~|               href=~/posts?tags="
         ++ encoded
         ++ tpl "~>|              "
         ++ tagName
         ++ tpl "|              <span class=~text-muted text-xs~>"
         ++ confidenceText
         ++ tpl "</span>|            </a>|          </span>|        </li>"))
  | _, _ => Some None
  end.

(** [TagManager.createTagColumn] *)
Definition createTagColumn (tagItems : jsstring) : jsstring :=
  tpl "|        <div class=~tag-column card p-2 h-fit space-y-1~>|          <h3>Suggested Tags</h3>|          <ul class=~tag-list~>"
  ++ tagItems
  ++ tpl "</ul>|        </div>".

(** [TagManager.processCachedTags]: the items joined with the empty
    separator, inside the column; [None] when an item throws. *)
Definition processCachedTags (tagDataArray : list TagEntry)
    (currentTags : list jsstring) : option jsstring :=
  items ← mapM (fun tag => createTagItemFromData tag currentTags) tagDataArray;
  Some (createTagColumn (concat items)).

(** [.filter(Boolean)] on an array of strings and nulls *)
Definition filter_truthy (l : list (option jsstring)) : list jsstring :=
  filter_nonempty (omap id l).

(** [TagManager.processSuggestedTags], given the rows that
    [responseDoc.querySelectorAll("tbody tr")] delivers. *)
Definition processSuggestedTags (rows : list Row) (currentTags : list jsstring)
  : option jsstring :=
  items ← mapM (fun row => createTagItem row currentTags) rows;
  Some (createTagColumn (concat (filter_truthy items))).

(** ** The file name sent with the media (LITDApp.prepareMediaData) *)

(** [s.split(sep)] for a separator of one code unit. *)
Fixpoint split_on (sep : Z) (piece : jsstring) (s : jsstring) : list jsstring :=
  match s with
  | [] => [piece]
  | c :: rest =>
      if c =? sep then piece :: split_on sep [] rest
      else split_on sep (piece ++ [c]) rest
  end.

(** [url.split("/").pop()?.split("?")[0] || "image.jpg"] *)
Definition fileName_of_url (url : jsstring) : jsstring :=
  let last_segment := List.last (split_on 47 [] url) [] in
  match hd [] (split_on 63 [] last_segment) with
  | [] => js "image.jpg"
  | base => base
  end.

(** ** The key of the earlier script (LITD.user.js) *)

Definition is_alnum (c : Z) : bool :=
  ((48 <=? c) && (c <=? 57)) || ((65 <=? c) && (c <=? 90))
  || ((97 <=? c) && (c <=? 122)).

(** [cache.key]: [url.replace(/[^a-zA-Z0-9]/g, '_')] after the prefix. *)
Definition cache_key (url : jsstring) : jsstring :=
  js "litd_cache_" ++ map (fun c => if is_alnum c then c else 95) url.

(** What [encodeURIComponent] may emit: unreserved characters and the
    percent sign. *)
Definition uri_safe (c : Z) : Prop := uri_unreserved c = true \/ c = 37.

Definition is_code_unit (c : Z) : Prop := 0 <= c < 65536.

(** * Properties *)

(** ** Key derivation *)

Lemma ToInt32_range x : - 2 ^ 31 <= ToInt32 x < 2 ^ 31.
Proof.
  unfold ToInt32.
  pose proof (Z.mod_pos_bound (x + 2 ^ 31) (2 ^ 32) ltac:(lia)). lia.
Qed.

Lemma ToInt32_shift x : exists k, ToInt32 x = x + k * 2 ^ 32.
Proof.
  exists (- ((x + 2 ^ 31) / 2 ^ 32)). unfold ToInt32.
  pose proof (Z.div_mod (x + 2 ^ 31) (2 ^ 32) ltac:(lia)). lia.
Qed.

Lemma ToInt32_plus_multiple x k : ToInt32 (x + k * 2 ^ 32) = ToInt32 x.
Proof.
  unfold ToInt32.
  replace (x + k * 2 ^ 32 + 2 ^ 31) with (x + 2 ^ 31 + k * 2 ^ 32) by lia.
  now rewrite Z_mod_plus_full.
Qed.

Lemma generateKey_step hash char :
  js_band (js_shl hash 5 - hash + char) (js_shl hash 5 - hash + char)
  = ToInt32 (31 * hash + char).
Proof.
  unfold js_band, js_shl. rewrite Z.land_diag.
  change (Z.land 5 31) with 5. rewrite Z.shiftl_mul_pow2 by lia.
  destruct (ToInt32_shift hash) as [k1 ->].
  destruct (ToInt32_shift ((hash + k1 * 2 ^ 32) * 2 ^ 5)) as [k2 ->].
  replace ((hash + k1 * 2 ^ 32) * 2 ^ 5 + k2 * 2 ^ 32 - hash + char)
    with (31 * hash + char + (32 * k1 + k2) * 2 ^ 32) by lia.
  apply ToInt32_plus_multiple.
Qed.

Lemma generateKey_loop_poly url hash :
  - 2 ^ 31 <= hash < 2 ^ 31 ->
  exists k, generateKey_loop url hash = poly31 url hash + k * 2 ^ 32
            /\ - 2 ^ 31 <= generateKey_loop url hash < 2 ^ 31.
Proof.
  revert hash. induction url as [|char rest IH]; intros hash Hh; simpl.
  - exists 0. lia.
  - rewrite generateKey_step.
    destruct (IH (ToInt32 (31 * hash + char)) (ToInt32_range _)) as (k & Hk & Hr).
    destruct (ToInt32_shift (31 * hash + char)) as [k' Hk'].
    enough (Hp : forall a m, poly31 rest (a + m * 2 ^ 32)
                             = poly31 rest a + m * 31 ^ Z.of_nat (length rest) * 2 ^ 32).
    { exists (k' * 31 ^ Z.of_nat (length rest) + k). split; [|exact Hr].
      rewrite Hk, Hk', Hp. lia. }
    clear. induction rest as [|c r IHr]; intros a m; simpl poly31.
    + simpl. lia.
    + replace (31 * (a + m * 2 ^ 32) + c) with (31 * a + c + (31 * m) * 2 ^ 32) by lia.
      rewrite IHr. rewrite length_cons, Nat2Z.inj_succ, Z.pow_succ_r by lia. lia.
Qed.

Lemma string_of_uint_digits d :
  Forall is_decimal_digit (js (NilEmpty.string_of_uint d)).
Proof.
  induction d; simpl; try constructor; auto; unfold is_decimal_digit; simpl; lia.
Qed.

Lemma Number_toString_nonneg_digits n :
  0 <= n ->
  Forall is_decimal_digit (Number_toString n) /\ Number_toString n <> [].
Proof.
  intros Hn. unfold Number_toString.
  destruct n as [|p|p]; [| |lia].
  - split; [repeat constructor; unfold is_decimal_digit; simpl; lia | discriminate].
  - simpl. destruct (Pos.to_uint p); simpl;
      (split; [|discriminate]);
      repeat first [apply string_of_uint_digits
                   | constructor; [unfold is_decimal_digit; simpl; lia|]
                   | constructor].
Qed.

(** ** Whitespace and trimming *)

Lemma replace_ws_runs_no_ws in_run s : no_ws (replace_ws_runs in_run s).
Proof.
  revert in_run. induction s as [|c rest IH]; intros in_run; simpl.
  - constructor.
  - destruct (is_whitespace c) eqn:Hc.
    + destruct in_run; [apply IH|constructor; [reflexivity|apply IH]].
    + constructor; [exact Hc|apply IH].
Qed.

Lemma replace_ws_runs_app_not_ws in_run a x s :
  is_whitespace x = false ->
  replace_ws_runs in_run (a ++ x :: s)
  = replace_ws_runs in_run (a ++ [x]) ++ replace_ws_runs false s.
Proof.
  intros Hx. revert in_run. induction a as [|c a IH]; intros in_run; simpl.
  - now rewrite Hx.
  - destruct (is_whitespace c); [destruct in_run|]; simpl; now rewrite IH.
Qed.

Lemma replace_ws_runs_run ws s :
  all_ws ws -> head_not_ws s ->
  replace_ws_runs true (ws ++ s) = replace_ws_runs false s.
Proof.
  intros Hws Hs. induction Hws as [|c ws Hc _ IH]; simpl.
  - destruct s as [|y s]; simpl in *; [reflexivity|now rewrite Hs].
  - now rewrite Hc.
Qed.

(** An internal run of whitespace becomes exactly one underscore. *)
Lemma replace_ws_runs_internal a x ws y b :
  is_whitespace x = false -> is_whitespace y = false ->
  all_ws ws -> ws <> [] ->
  replace_ws_runs false (a ++ [x] ++ ws ++ [y] ++ b)
  = replace_ws_runs false (a ++ [x]) ++ [95] ++ replace_ws_runs false ([y] ++ b).
Proof.
  intros Hx Hy Hws Hne. simpl app.
  rewrite replace_ws_runs_app_not_ws by exact Hx. f_equal.
  destruct Hws as [|c ws Hc Hws]; [congruence|]. simpl. rewrite Hc. f_equal.
  apply (replace_ws_runs_run ws (y :: b)); [exact Hws|exact Hy].
Qed.

Lemma trimStart_spec s :
  exists pre, s = pre ++ trimStart s /\ all_ws pre /\ head_not_ws (trimStart s).
Proof.
  induction s as [|c rest (pre & Heq & Hpre & Hhd)]; simpl.
  - exists []. repeat split; constructor.
  - destruct (is_whitespace c) eqn:Hc.
    + exists (c :: pre). split; [simpl; congruence|]. split; [now constructor|exact Hhd].
    + exists []. split; [reflexivity|]. split; [constructor|exact Hc].
Qed.

Lemma trimStart_id s : head_not_ws s -> trimStart s = s.
Proof. destruct s as [|c rest]; simpl; [reflexivity|now intros ->]. Qed.

(** [trim] removes a whitespace prefix and a whitespace suffix and leaves
    a string that neither starts nor ends with whitespace. *)
Lemma trim_spec s :
  exists pre post,
    s = pre ++ trim s ++ post /\ all_ws pre /\ all_ws post
    /\ head_not_ws (trim s) /\ head_not_ws (rev (trim s)).
Proof.
  unfold trim, trimEnd.
  destruct (trimStart_spec s) as (pre & Hs & Hpre & Hhd).
  destruct (trimStart_spec (rev (trimStart s))) as (post & Ht & Hpost & Hhd').
  set (t := trimStart (rev (trimStart s))) in *.
  assert (Hts : trimStart s = rev t ++ rev post).
  { rewrite <- (rev_involutive (trimStart s)), Ht, rev_app_distr. reflexivity. }
  exists pre, (rev post). split; [congruence|]. split; [exact Hpre|].
  split; [apply Forall_rev; exact Hpost|]. split.
  - destruct (rev t) eqn:E; [exact I|].
    rewrite Hts in Hhd. exact Hhd.
  - now rewrite rev_involutive.
Qed.

Lemma trim_id s : head_not_ws s -> head_not_ws (rev s) -> trim s = s.
Proof.
  intros H1 H2. unfold trim, trimEnd.
  rewrite (trimStart_id s H1), (trimStart_id _ H2). apply rev_involutive.
Qed.

Lemma no_ws_head s : no_ws s -> head_not_ws s.
Proof. destruct 1; simpl; auto. Qed.

Lemma trim_no_ws s : no_ws s -> trim s = s.
Proof.
  intros H. apply trim_id; apply no_ws_head; [exact H|apply Forall_rev, H].
Qed.

Lemma head_not_ws_app s t : s <> [] -> head_not_ws (s ++ t) -> head_not_ws s.
Proof. destruct s; [congruence|]. intros _ H. exact H. Qed.

Lemma separated_words_cover_aux n : forall text,
  (length text <= n)%nat -> head_not_ws text -> head_not_ws (rev text) ->
  exists words seps, separated_words text words seps.
Proof.
  induction n as [|n IH]; intros text Hlen H1 H2.
  - destruct text; [|simpl in Hlen; lia].
    exists [], []. repeat split; constructor.
  - destruct text as [|c rest]; [exists [], []; repeat split; constructor|].
    simpl in H1.
    destruct (trimStart_spec rest) as (pre & Heq & Hpre & Hhd).
    destruct (trimStart rest) as [|c' t'] eqn:Et.
    + rewrite app_nil_r in Heq. subst pre.
      destruct rest as [|r rest'] using rev_ind.
      * exists [[c]], []. repeat split; repeat constructor; try assumption; discriminate.
      * exfalso. clear IHrest'. change (c :: rest' ++ [r]) with ((c :: rest') ++ [r]) in H2.
        rewrite rev_unit in H2. simpl in H2.
        apply Forall_app in Hpre as [_ Hr]. apply Forall_cons in Hr as [Hr _]. congruence.
    + assert (Hrev : head_not_ws (rev (c' :: t'))).
      { simpl rev in H2. rewrite Heq, rev_app_distr, <- !app_assoc in H2.
        apply head_not_ws_app in H2; [exact H2|].
        simpl. intros E. apply app_eq_nil in E as [_ E]. discriminate. }
      destruct (IH (c' :: t')) as (words & seps & Hw & Hs & Hl & Ht);
        [simpl in Hlen; rewrite Heq, length_app in Hlen; simpl in *; lia
        |exact Hhd|exact Hrev|].
      destruct words as [|w words]; [discriminate Ht|].
      apply Forall_cons in Hw as [[Hw Hwne] Hwords].
      destruct pre as [|p pre].
      * exists ((c :: w) :: words), seps. simpl in Heq. rewrite Heq, Ht.
        split; [constructor; [split; [now constructor|discriminate]|exact Hwords]|].
        split; [exact Hs|]. split; [exact Hl|].
        destruct words, seps; reflexivity.
      * exists ([c] :: w :: words), ((p :: pre) :: seps). rewrite Heq, Ht.
        split; [constructor; [split; [now repeat constructor|discriminate]|];
                constructor; [now split|exact Hwords]|].
        split; [constructor; [split; [exact Hpre|discriminate]|exact Hs]|].
        split; [simpl in *; lia|reflexivity].
Qed.

(** Every text that neither starts nor ends with whitespace is words
    separated by runs of whitespace. *)
Lemma separated_words_cover text :
  head_not_ws text -> head_not_ws (rev text) ->
  exists words seps, separated_words text words seps.
Proof. apply (separated_words_cover_aux (length text)). lia. Qed.

(** ** The response compressor *)

Section Compressor.

Variable host : Host.

Lemma row_to_tag_has_both row :
  has_both row = true <-> is_Some (row_to_tag row).
Proof.
  unfold has_both, row_to_tag.
  destruct (row_link row), (row_confidence row); simpl; split;
    intros H; try discriminate; try (destruct H; discriminate); eauto.
Qed.

Lemma filter_Boolean_map_row_to_tag rows :
  Forall2 (fun row tag => row_to_tag row = Some tag)
    (List.filter has_both rows) (filter_Boolean (map row_to_tag rows)).
Proof.
  induction rows as [|row rows IH]; simpl; [constructor|].
  unfold filter_Boolean in *. simpl.
  destruct (row_to_tag row) as [tag|] eqn:E; simpl.
  - assert (has_both row = true) as -> by (apply row_to_tag_has_both; eauto).
    now constructor.
  - destruct (has_both row) eqn:Hb; [|exact IH].
    apply row_to_tag_has_both in Hb. rewrite E in Hb. destruct Hb; discriminate.
Qed.

(** C7. The compressor yields one entry per row that has both the tag
    link and the confidence cell, in row order, whatever the other rows
    are; when the parser throws, the result is the empty sequence. *)
Theorem parseTagData_one_entry_per_complete_row (html : jsstring) :
  match DOMParser_rows host html with
  | ParsedRows rows =>
      length (parseTagData host html) = length (List.filter has_both rows)
      /\ Forall2 (fun row tag => row_to_tag row = Some tag)
           (List.filter has_both rows) (parseTagData host html)
  | ParseThrows => parseTagData host html = []
  end.
Proof.
  unfold parseTagData. destruct (DOMParser_rows host html) as [|rows]; [reflexivity|].
  pose proof (filter_Boolean_map_row_to_tag rows) as H.
  split; [symmetry; eapply Forall2_length, H|exact H].
Qed.

Lemma parseTagData_lookup html rows i tag :
  DOMParser_rows host html = ParsedRows rows ->
  parseTagData host html !! i = Some tag ->
  exists row, row ∈ rows /\ row_to_tag row = Some tag.
Proof.
  intros Hrows Hi. unfold parseTagData in Hi. rewrite Hrows in Hi.
  pose proof (filter_Boolean_map_row_to_tag rows) as H.
  destruct (Forall2_lookup_r _ _ _ _ _ H Hi) as (row & Hrow & Htag).
  exists row. split; [|exact Htag].
  apply list_elem_of_lookup_2 in Hrow.
  apply list_elem_of_In, filter_In in Hrow. apply list_elem_of_In, Hrow.
Qed.

Lemma replace_ws_runs_word_app w s :
  no_ws w -> replace_ws_runs false (w ++ s) = w ++ replace_ws_runs false s.
Proof.
  induction 1 as [|c w Hc _ IH]; simpl; [reflexivity|].
  rewrite Hc. now f_equal.
Qed.

Lemma replace_ws_runs_sep_app sep s :
  all_ws sep -> sep <> [] -> head_not_ws s ->
  replace_ws_runs false (sep ++ s) = 95 :: replace_ws_runs false s.
Proof.
  intros Hsep Hne Hs. destruct Hsep as [|c sep Hc Hsep]; [congruence|].
  simpl. rewrite Hc. f_equal. now apply replace_ws_runs_run.
Qed.

Lemma interleave_head word words seps :
  no_ws word -> word <> [] -> head_not_ws (interleave (word :: words) seps).
Proof.
  intros Hw Hne. destruct Hw as [|c w Hc _]; [congruence|].
  destruct seps; exact Hc.
Qed.

(** In a text of words separated by whitespace, every separator becomes
    one underscore and the words are kept. *)
Lemma replace_ws_runs_separated_words text words seps :
  separated_words text words seps ->
  replace_ws_runs false text = join_underscore words.
Proof.
  intros (Hwords & Hseps & Hlen & ->).
  revert seps Hseps Hlen.
  induction Hwords as [|word words [Hw Hne] Hwords IH]; intros seps Hseps Hlen;
    [reflexivity|].
  destruct Hwords as [|word' words' [Hw' Hne'] Hwords'].
  - destruct seps; [|discriminate]. simpl.
    rewrite <- (app_nil_r word) at 1. rewrite replace_ws_runs_word_app by exact Hw.
    apply app_nil_r.
  - destruct Hseps as [|sep seps [Hsep Hsne] Hseps]; [discriminate|].
    change (interleave (word :: word' :: words') (sep :: seps))
      with (word ++ sep ++ interleave (word' :: words') seps).
    rewrite replace_ws_runs_word_app by exact Hw.
    rewrite replace_ws_runs_sep_app
      by (try assumption; now apply interleave_head).
    rewrite IH; [reflexivity|exact Hseps|].
    simpl in Hlen. now injection Hlen.
Qed.

Lemma row_to_tag_normalised link cell :
  normalised_entry link cell
    {| name := trim (replace_ws_runs false link); confidence := trim cell |}.
Proof.
  split; [|split; [reflexivity|apply trim_spec]].
  intros words seps Hsep. simpl.
  rewrite (trim_no_ws _ (replace_ws_runs_no_ws false link)).
  exact (replace_ws_runs_separated_words link words seps Hsep).
Qed.

(** C6, as far as the code keeps it. Every entry comes from a row with
    both elements and is the normalised entry of that row: for a link
    text made of words separated by runs of whitespace the name is the
    words joined by single underscores, and the confidence is the cell's
    text with leading and trailing whitespace removed. Conversely every
    row with both elements yields its entry, also when the name is
    empty. *)
Theorem parseTagData_entries_normalised (html : jsstring) (rows : list Row) :
  DOMParser_rows host html = ParsedRows rows ->
  (forall tag,
     tag ∈ parseTagData host html ->
     exists link cell,
       mkRow (Some link) (Some cell) ∈ rows
       /\ normalised_entry link cell tag)
  /\ (forall link cell,
        mkRow (Some link) (Some cell) ∈ rows ->
        exists tag,
          tag ∈ parseTagData host html
          /\ normalised_entry link cell tag).
Proof.
  intros Hrows. split.
  - intros tag Hin. apply list_elem_of_lookup in Hin as [i Hi].
    destruct (parseTagData_lookup _ _ _ _ Hrows Hi) as (row & Hrow & Htag).
    destruct row as [[link|] [cell|]]; try discriminate.
    injection Htag as <-. exists link, cell.
    split; [exact Hrow|apply row_to_tag_normalised].
  - intros link cell Hin.
    exists {| name := trim (replace_ws_runs false link); confidence := trim cell |}.
    split; [|apply row_to_tag_normalised].
    unfold parseTagData. rewrite Hrows.
    unfold filter_Boolean. apply list_elem_of_omap.
    exists (Some {| name := trim (replace_ws_runs false link); confidence := trim cell |}).
    split; [|reflexivity].
    apply list_elem_of_fmap. exists (mkRow (Some link) (Some cell)).
    split; [reflexivity|exact Hin].
Qed.

End Compressor.

(** C6 as the specification words it fails on [sample_html]: the fourth
    row gives an entry with an empty name, and the second an entry whose
    confidence is not the text of any confidence cell. *)
Lemma parseTagData_keeps_empty_name_trims_confidence :
  ~ (forall tag, tag ∈ parseTagData sample_host sample_html -> name tag <> [])
  /\ ~ (forall tag, tag ∈ parseTagData sample_host sample_html ->
          exists row, row ∈ sample_rows
                      /\ row_confidence row = Some (confidence tag)).
Proof.
  split; intros H.
  - apply (H {| name := []; confidence := js "12%" |}); [|reflexivity].
    vm_compute. do 2 apply list_elem_of_further. apply list_elem_of_here.
  - destruct (H {| name := js "1girl"; confidence := js "87%" |}) as (row & Hin & Hc).
    + vm_compute. apply list_elem_of_further, list_elem_of_here.
    + apply list_elem_of_In in Hin. simpl in Hin.
      destruct Hin as [<-|[<-|[<-|[<-|[]]]]]; discriminate Hc.
Qed.

Lemma parseTagData_entries_normalised_witness :
  DOMParser_rows sample_host sample_html = ParsedRows sample_rows
  /\ (exists tag,
        tag ∈ parseTagData sample_host sample_html
        /\ name tag = js "long_hair" /\ confidence tag = js "98%")
  /\ (exists tag,
        tag ∈ parseTagData sample_host sample_html
        /\ name tag = js "1girl" /\ confidence tag = js "87%")
  /\ (exists tag,
        tag ∈ parseTagData sample_host sample_html
        /\ name tag = [] /\ confidence tag = js "12%").
Proof.
  destruct (parseTagData_entries_normalised sample_host sample_html sample_rows
              eq_refl) as [_ Hrow].
  split; [reflexivity|]. split; [|split].
  - destruct (Hrow (js "long hair") (js "98%")) as (tag & Hin & Hname & Hconf & _);
      [apply list_elem_of_here|].
    exists tag. split; [exact Hin|]. split; [|exact Hconf].
    apply (Hname [js "long"; js "hair"] [js " "]).
    repeat split;
      repeat (constructor; try split; try discriminate; try reflexivity).
  - destruct (Hrow (js "1girl") (js " 87% ")) as (tag & Hin & Hname & Hconf & _);
      [apply list_elem_of_further, list_elem_of_here|].
    exists tag. split; [exact Hin|]. split; [|exact Hconf].
    apply (Hname [js "1girl"] []).
    repeat split;
      repeat (constructor; try split; try discriminate; try reflexivity).
  - destruct (Hrow [] (js "12%")) as (tag & Hin & Hname & Hconf & _);
      [do 3 apply list_elem_of_further; apply list_elem_of_here|].
    exists tag. split; [exact Hin|]. split; [|exact Hconf].
    apply (Hname [] []). repeat split; constructor.
Defined.

(** ** Cursors *)

Lemma key_leb_total a b : key_leb a b = true \/ key_leb b a = true.
Proof.
  revert b. induction a as [|x a IH]; intros [|y b]; simpl; auto.
  destruct (Z.ltb_spec x y), (Z.ltb_spec y x), (Z.eqb_spec x y), (Z.eqb_spec y x);
    auto; lia.
Qed.

Lemma key_leb_trans a b c :
  key_leb a b = true -> key_leb b c = true -> key_leb a c = true.
Proof.
  revert b c. induction a as [|x a IH]; intros [|y b] [|z c]; simpl; auto;
    try discriminate.
  destruct (Z.ltb_spec x y), (Z.ltb_spec y z), (Z.ltb_spec x z),
    (Z.eqb_spec x y), (Z.eqb_spec y z), (Z.eqb_spec x z);
    auto; try lia; try discriminate. apply IH.
Qed.

#[global] Instance index_le_total : Total index_le.
Proof.
  intros [k1 r1] [k2 r2]. unfold index_le. simpl.
  destruct (Z.lt_trichotomy (timestamp r1) (timestamp r2)) as [?|[?|?]]; auto.
  destruct (key_leb_total k1 k2); auto.
Qed.

#[global] Instance index_le_trans : Transitive index_le.
Proof.
  intros [k1 r1] [k2 r2] [k3 r3]. unfold index_le. simpl.
  intros [?|[? ?]] [?|[? ?]]; try (left; lia).
  right. split; [lia|]. eapply key_leb_trans; eauto.
Qed.

Section Cursors.

Variable st : store.
Hypothesis Hkeys : keyPath_ok st.

Lemma sorted_entries_keys (R : relation (jsstring * CacheRecord))
    `{!forall x y, Decision (R x y)} :
  key <$> (merge_sort R (map_to_list st)).*2 = (merge_sort R (map_to_list st)).*1.
Proof.
  assert (HF : Forall (fun kv => key kv.2 = kv.1) (merge_sort R (map_to_list st))).
  { rewrite merge_sort_Permutation. apply Forall_forall. intros [k r] Hin.
    apply elem_of_map_to_list in Hin. exact (Hkeys k r Hin). }
  induction HF as [|kv l Hkv _ IH]; [reflexivity|]. csimpl. now rewrite Hkv, IH.
Qed.

Lemma sorted_entries_NoDup (R : relation (jsstring * CacheRecord))
    `{!forall x y, Decision (R x y)} :
  NoDup (key <$> (merge_sort R (map_to_list st)).*2).
Proof.
  rewrite sorted_entries_keys, merge_sort_Permutation.
  apply NoDup_fst_map_to_list.
Qed.

Lemma sorted_entries_elem_of (R : relation (jsstring * CacheRecord))
    `{!forall x y, Decision (R x y)} record :
  record ∈ (merge_sort R (map_to_list st)).*2 <-> st !! key record = Some record.
Proof.
  rewrite merge_sort_Permutation, list_elem_of_fmap. split.
  - intros ([k r] & -> & Hin). apply elem_of_map_to_list in Hin. simpl.
    now rewrite (Hkeys k r Hin).
  - intros Hr. exists (key record, record). split; [reflexivity|].
    now apply elem_of_map_to_list.
Qed.

Lemma index_openCursor_NoDup : NoDup (key <$> index_openCursor st).
Proof. apply sorted_entries_NoDup. Qed.

Lemma index_openCursor_elem_of record :
  record ∈ index_openCursor st <-> st !! key record = Some record.
Proof. apply sorted_entries_elem_of. Qed.

End Cursors.

Lemma openCursor_length (st : store) : length (openCursor st) = base.size st.
Proof.
  unfold openCursor.
  now rewrite length_fmap, merge_sort_Permutation, length_map_to_list.
Qed.

(** The index cursor delivers the records oldest first. *)
Lemma index_openCursor_sorted (st : store) :
  StronglySorted (fun r1 r2 => timestamp r1 <= timestamp r2) (index_openCursor st).
Proof.
  unfold index_openCursor.
  apply (StronglySorted_fmap snd index_le).
  - intros [k1 r1] [k2 r2]. unfold index_le. simpl. lia.
  - apply StronglySorted_merge_sort; apply _.
Qed.

(** ** The eviction sweep *)

Lemma delete_all_lookup (toDelete : list jsstring) (st : store) (k : jsstring) :
  delete_all toDelete st !! k = if decide (k ∈ toDelete) then None else st !! k.
Proof.
  unfold delete_all. revert st.
  induction toDelete as [|k' rest IH]; intros st; simpl.
  - destruct (decide (k ∈ [])) as [Hin|_]; [inversion Hin|reflexivity].
  - rewrite IH. destruct (decide (k ∈ rest)) as [Hin|Hnin].
    + rewrite decide_True by (now apply list_elem_of_further). reflexivity.
    + destruct (decide (k = k')) as [->|Hne].
      * rewrite decide_True by apply list_elem_of_here. apply lookup_delete_eq.
      * rewrite decide_False; [apply lookup_delete_ne; congruence|].
        intros [?|?]%elem_of_cons; congruence.
Qed.

Section Sweep.

Variable cfg : Config.
Variable host : Host.

Lemma expired_spec now record :
  expired cfg now record = true <-> now - timestamp record > CACHE_EXPIRY_MS cfg.
Proof. unfold expired. rewrite Z.gtb_ltb, Z.ltb_lt. lia. Qed.

Lemma cleanup_test_spec now totalCount index record :
  (if expired cfg now record then true
   else (totalCount >? MAX_CACHE_SIZE cfg)
        && (Z.of_nat index <? totalCount - MAX_CACHE_SIZE cfg)) = true
  <-> evicted_by_rule cfg now totalCount index record.
Proof.
  unfold evicted_by_rule. pose proof (expired_spec now record) as He.
  destruct (expired cfg now record).
  - split; [intros _; left; now apply He|reflexivity].
  - rewrite andb_true_iff, Z.gtb_ltb, !Z.ltb_lt. split; [lia|].
    intros [Hx|Hc]; [apply He in Hx; discriminate|lia].
Qed.

Lemma cleanup_forEach_spec now totalCount entries index toDelete :
  exists marked,
    cleanup_forEach cfg now totalCount index entries toDelete = toDelete ++ marked
    /\ sublist marked (key <$> entries)
    /\ (forall j record, entries !! j = Some record ->
          evicted_by_rule cfg (now (index + j)%nat) totalCount (index + j) record ->
          key record ∈ marked)
    /\ (forall k, k ∈ marked ->
          exists j record,
            entries !! j = Some record /\ key record = k
            /\ evicted_by_rule cfg (now (index + j)%nat) totalCount (index + j) record).
Proof.
  revert index toDelete.
  induction entries as [|record rest IH]; intros index toDelete.
  - exists []. simpl. rewrite app_nil_r. split; [reflexivity|].
    split; [constructor|]. split; [intros j r Hj; discriminate|].
    intros k Hk. inversion Hk.
  - simpl cleanup_forEach.
    pose proof (cleanup_test_spec (now index) totalCount index record) as Htest.
    set (test := if expired cfg (now index) record then true
                 else (totalCount >? MAX_CACHE_SIZE cfg)
                      && (Z.of_nat index <? totalCount - MAX_CACHE_SIZE cfg)) in Htest.
    set (toDelete' := if test then toDelete ++ [key record] else toDelete).
    assert (Heq : (if expired cfg (now index) record then toDelete ++ [key record]
                   else if (totalCount >? MAX_CACHE_SIZE cfg)
                           && (Z.of_nat index <? totalCount - MAX_CACHE_SIZE cfg)
                        then toDelete ++ [key record] else toDelete) = toDelete').
    { unfold toDelete', test. now destruct (expired cfg (now index) record). }
    rewrite Heq. clear Heq.
    destruct (IH (S index) toDelete') as (marked & Hrun & Hsub & Hin & Hout).
    exists (if test then key record :: marked else marked).
    split; [|split; [|split]].
    + rewrite Hrun. unfold toDelete'. destruct test; [|reflexivity].
      now rewrite <- app_assoc.
    + csimpl. destruct test; [now apply sublist_skip|now apply sublist_cons].
    + intros [|j] r Hj Hrule.
      * injection Hj as <-. rewrite Nat.add_0_r in Hrule.
        apply Htest in Hrule. rewrite Hrule. apply list_elem_of_here.
      * simpl in Hj. rewrite <- Nat.add_succ_comm in Hrule.
        specialize (Hin j r Hj Hrule).
        destruct test; [now apply list_elem_of_further|exact Hin].
    + intros k Hk.
      assert (Hcases : (test = true /\ k = key record) \/ k ∈ marked).
      { destruct test; [|now right].
        apply elem_of_cons in Hk as [->|Hk]; auto. }
      destruct Hcases as [[Ht ->]|Hk'].
      * exists 0%nat, record. rewrite Nat.add_0_r. split; [reflexivity|].
        split; [reflexivity|]. now apply Htest.
      * destruct (Hout k Hk') as (j & r & Hj & Hkey & Hrule).
        exists (S j), r. rewrite <- Nat.add_succ_comm. auto.
Qed.

Lemma cleanup_forEach_capacity now totalCount entries index toDelete :
  (forall j record, entries !! j = Some record ->
     expired cfg (now (index + j)%nat) record = false) ->
  cleanup_forEach cfg now totalCount index entries toDelete
  = toDelete
    ++ (key <$> take (Z.to_nat (totalCount - MAX_CACHE_SIZE cfg) - index) entries).
Proof.
  revert index toDelete.
  induction entries as [|record rest IH]; intros index toDelete Hfresh.
  - simpl. rewrite take_nil. simpl. now rewrite app_nil_r.
  - simpl cleanup_forEach.
    pose proof (Hfresh 0%nat record eq_refl) as H0. rewrite Nat.add_0_r in H0.
    rewrite H0. rewrite IH.
    2:{ intros j r Hj. rewrite Nat.add_succ_comm. now apply Hfresh. }
    destruct ((totalCount >? MAX_CACHE_SIZE cfg)
              && (Z.of_nat index <? totalCount - MAX_CACHE_SIZE cfg)) eqn:Hc.
    + apply andb_true_iff in Hc as [_ Hc]. apply Z.ltb_lt in Hc.
      replace (Z.to_nat (totalCount - MAX_CACHE_SIZE cfg) - index)%nat
        with (S (Z.to_nat (totalCount - MAX_CACHE_SIZE cfg) - S index))%nat by lia.
      csimpl. now rewrite <- app_assoc.
    + assert (Hle : totalCount - MAX_CACHE_SIZE cfg <= Z.of_nat index).
      { apply andb_false_iff in Hc as [Hc|Hc].
        - rewrite Z.gtb_ltb in Hc. apply Z.ltb_ge in Hc. lia.
        - now apply Z.ltb_ge in Hc. }
      replace (Z.to_nat (totalCount - MAX_CACHE_SIZE cfg) - index)%nat with 0%nat by lia.
      replace (Z.to_nat (totalCount - MAX_CACHE_SIZE cfg) - S index)%nat with 0%nat by lia.
      now rewrite !take_0.
Qed.

(** C1. On a healthy backend the sweep resolves, and for the snapshot
    [allEntries] that the timestamp index delivers oldest first it deletes
    exactly the keys of the records that are expired when examined or
    stand among the first [max 0 (n - maxEntries)] positions; no key is
    marked twice. With [maxEntries = N] and [N + k] unexpired records of
    distinct timestamps, the [k] oldest are deleted and the [N] newest
    remain. *)
Theorem cleanupOldEntries_deletes_union (now : nat -> Z) (st : store) :
  keyPath_ok st ->
  let allEntries := index_openCursor st in
  let n := Z.of_nat (length allEntries) in
  let toDelete := cleanup_toDelete cfg now allEntries in
  let st' := (cleanupOldEntries cfg Healthy now st).2 in
  (cleanupOldEntries cfg Healthy now st).1 = Fulfilled tt
  /\ StronglySorted (fun r1 r2 => timestamp r1 <= timestamp r2) allEntries
  /\ (forall record, record ∈ allEntries <-> st !! key record = Some record)
  /\ NoDup toDelete
  /\ (forall k, k ∈ toDelete <->
        exists i record, allEntries !! i = Some record /\ key record = k
                         /\ evicted_by_rule cfg (now i) n i record)
  /\ (forall i record, allEntries !! i = Some record ->
        (key record ∈ toDelete <-> evicted_by_rule cfg (now i) n i record))
  /\ (forall k, st' !! k = if decide (k ∈ toDelete) then None else st !! k)
  /\ (forall N k : nat,
        MAX_CACHE_SIZE cfg = Z.of_nat N ->
        length allEntries = (N + k)%nat ->
        (forall i record, allEntries !! i = Some record ->
           now i - timestamp record <= CACHE_EXPIRY_MS cfg) ->
        NoDup (timestamp <$> allEntries) ->
        toDelete = key <$> take k allEntries
        /\ (forall record, record ∈ take k allEntries -> st' !! key record = None)
        /\ (forall record,
              record ∈ drop k allEntries <-> st' !! key record = Some record)
        /\ length (drop k allEntries) = N
        /\ (forall old new, old ∈ take k allEntries -> new ∈ drop k allEntries ->
              timestamp old < timestamp new)).
Proof.
  intros Hkeys allEntries n toDelete st'.
  pose proof (index_openCursor_NoDup st Hkeys) as Hnodup.
  pose proof (index_openCursor_elem_of st Hkeys) as Helem.
  pose proof (index_openCursor_sorted st) as Hsorted.
  fold allEntries in Hnodup, Helem, Hsorted.
  destruct (cleanup_forEach_spec now n allEntries 0 [])
    as (marked & Hrun & Hsub & Hin & Hout).
  assert (HtoDelete : toDelete = marked) by exact Hrun.
  assert (Hlookup : forall k,
             st' !! k = if decide (k ∈ toDelete) then None else st !! k).
  { intros k. apply delete_all_lookup. }
  assert (Hexists : forall k, k ∈ toDelete <->
            exists i record, allEntries !! i = Some record /\ key record = k
                             /\ evicted_by_rule cfg (now i) n i record).
  { intros k. rewrite HtoDelete. split.
    - apply Hout.
    - intros (i & record & Hi & <- & Hrule). now apply (Hin i record). }
  split; [reflexivity|]. split; [exact Hsorted|]. split; [exact Helem|].
  split; [rewrite HtoDelete; eapply sublist_NoDup; eauto|].
  split; [exact Hexists|]. split; [|split; [exact Hlookup|]].
  - intros i record Hi. rewrite Hexists. split.
    + intros (j & r & Hj & Hkey & Hrule).
      assert (i = j) as ->.
      { apply (NoDup_lookup _ i j (key record) Hnodup);
          rewrite list_lookup_fmap; [rewrite Hi|rewrite Hj]; simpl; congruence. }
      congruence.
    + intros Hrule. eauto.
  - intros N k HN Hlen Hfresh Htimes.
    assert (Hk : toDelete = key <$> take k allEntries).
    { unfold toDelete, cleanup_toDelete.
      rewrite cleanup_forEach_capacity.
      - simpl. do 2 f_equal. fold allEntries. lia.
      - intros j record Hj. simpl.
        destruct (expired cfg (now j) record) eqn:He; [|reflexivity].
        apply expired_spec in He. specialize (Hfresh j record Hj). lia. }
    assert (Hdisj : forall x, x ∈ key <$> take k allEntries ->
                              x ∉ key <$> drop k allEntries).
    { apply (NoDup_app (key <$> take k allEntries)).
      rewrite <- fmap_app, take_drop. exact Hnodup. }
    assert (Htdisj : forall x, x ∈ timestamp <$> take k allEntries ->
                               x ∉ timestamp <$> drop k allEntries).
    { apply (NoDup_app (timestamp <$> take k allEntries)).
      rewrite <- fmap_app, take_drop. exact Htimes. }
    assert (Hsorted' : StronglySorted (fun r1 r2 => timestamp r1 <= timestamp r2)
                         (take k allEntries ++ drop k allEntries)).
    { rewrite take_drop. exact Hsorted. }
    assert (Hsplit : forall record,
               record ∈ allEntries <->
               record ∈ take k allEntries \/ record ∈ drop k allEntries).
    { intros record. now rewrite <- (take_drop k allEntries) at 1; rewrite elem_of_app. }
    split; [exact Hk|]. split; [|split; [|split]].
    + intros record Hr. rewrite Hlookup, Hk.
      rewrite decide_True by (now apply list_elem_of_fmap_2). reflexivity.
    + intros record. rewrite Hlookup, Hk. split.
      * intros Hr. rewrite decide_False.
        -- apply Helem, Hsplit. now right.
        -- intros Hbad. apply list_elem_of_fmap in Hbad as (r' & Hkey & Hr').
           eapply Hdisj; [apply list_elem_of_fmap_2, Hr'|].
           rewrite <- Hkey. now apply list_elem_of_fmap_2.
      * destruct (decide (key record ∈ key <$> take k allEntries)) as [|Hnot];
          [discriminate|].
        intros Hst. apply Helem, Hsplit in Hst as [Hr|Hr]; [|exact Hr].
        exfalso. apply Hnot. now apply list_elem_of_fmap_2.
    + rewrite length_drop. lia.
    + intros old new Hold Hnew.
      pose proof (StronglySorted_app_1_elem_of _ _ _ _ _ Hsorted' Hold Hnew) as Hle.
      simpl in Hle.
      destruct (Z.eq_dec (timestamp old) (timestamp new)) as [Heq|Hne]; [|lia].
      exfalso. eapply Htdisj; [apply list_elem_of_fmap_2, Hold|].
      rewrite Heq. now apply list_elem_of_fmap_2.
Qed.

End Sweep.

(** ** Reads, writes and the invariants of the store *)

Lemma map_Forall_delete_all (P : jsstring -> CacheRecord -> Prop) toDelete st :
  map_Forall P st -> map_Forall P (delete_all toDelete st).
Proof.
  intros H k record Hk. rewrite delete_all_lookup in Hk.
  destruct (decide (k ∈ toDelete)); [discriminate|]. exact (H k record Hk).
Qed.

Section Store.

Variable cfg : Config.
Variable host : Host.

(** Each call keeps records filed under their own key and keeps empty tag
    lists out of the store. *)
Lemma run_preserves (P : jsstring -> CacheRecord -> Prop) c st :
  (forall now k html, parseTagData host html <> [] ->
     P k (new_record host now k (parseTagData host html))) ->
  map_Forall P st -> map_Forall P (run cfg host c st).
Proof.
  intros Hnew Hst.
  assert (Hdel : forall b k, map_Forall P (delete b k st).2).
  { intros b k. destruct b; simpl; auto. now apply map_Forall_delete. }
  assert (Hsweep : forall b nows st0, map_Forall P st0 ->
                     map_Forall P (cleanupOldEntries cfg b nows st0).2).
  { intros b nows st0 H0. destruct b; simpl; auto.
    now apply map_Forall_delete_all. }
  destruct c as [b bd now k|b bc now nows k html|b k|b nows|b now0 now1|b]; simpl.
  - destruct b; simpl; auto.
    destruct (st !! k) as [result|]; simpl; auto.
    destruct (expired cfg now result); simpl; auto.
  - unfold set.
    destruct (parseTagData host html) as [|tag tags'] eqn:Hparse;
      [destruct b; simpl; auto|].
    assert (Hput : map_Forall P (store_put (new_record host now k (tag :: tags')) st)).
    { unfold store_put. apply map_Forall_insert_2; [|exact Hst].
      simpl. rewrite <- Hparse. apply Hnew. rewrite Hparse. discriminate. }
    destruct b; simpl; auto.
  - apply Hdel.
  - now apply Hsweep.
  - destruct b; simpl; auto.
    destruct (getStats_scan (openCursor st) 0 0 now0) as [[? ?] ?]. exact Hst.
  - destruct b; simpl; auto. apply map_Forall_empty.
Qed.

Lemma reachable_invariants st :
  reachable cfg host st -> keyPath_ok st /\ tags_nonempty st.
Proof.
  induction 1 as [|c st _ [IHk IHt]].
  - split; apply map_Forall_empty.
  - split; apply run_preserves; auto.
Qed.

(** What a healthy [get] does with the record it finds. *)
Lemma get_found now k record bd st :
  st !! k = Some record ->
  get cfg Healthy bd now k st
  = if expired cfg now record
    then (Fulfilled None, (delete bd k st).2)
    else (Fulfilled (Some (tags record)), st).
Proof. intros Hk. unfold get. simpl. now rewrite Hk. Qed.

(** C3. A record older than the expiry window when read makes [get]
    resolve to null, and the delete it triggers removes the record; a
    record whose age is within the window has its tags returned. *)
Theorem get_expiry_on_read (now : Z) (k : jsstring) (record : CacheRecord)
    (st : store) :
  st !! k = Some record ->
  (now - timestamp record > CACHE_EXPIRY_MS cfg ->
     (forall bd, (get cfg Healthy bd now k st).1 = Fulfilled None)
     /\ (get cfg Healthy Healthy now k st).2 = base.delete k st
     /\ (get cfg Healthy Healthy now k st).2 !! k = None)
  /\ (now - timestamp record <= CACHE_EXPIRY_MS cfg ->
      forall bd, get cfg Healthy bd now k st
                 = (Fulfilled (Some (tags record)), st)).
Proof.
  intros Hk. pose proof (expired_spec cfg now record) as He.
  split; intros Hage.
  - apply He in Hage. split; [|split].
    + intros bd. now rewrite (get_found now k record bd st Hk), Hage.
    + now rewrite (get_found now k record Healthy st Hk), Hage.
    + rewrite (get_found now k record Healthy st Hk), Hage. apply lookup_delete_eq.
  - intros bd. rewrite (get_found now k record bd st Hk).
    destruct (expired cfg now record); [|reflexivity].
    assert (now - timestamp record > CACHE_EXPIRY_MS cfg) by now apply He. lia.
Qed.

(** C4. A response without extractable tags makes [set] resolve and leave
    the store as it was, so that a later [get] of a key that had no record
    still resolves to null; and no store the script can reach holds a
    record with an empty tag list. *)
Theorem set_without_tags_stores_nothing (b bc : backend) (now : Z)
    (nows : nat -> Z) (url html : jsstring) (st : store) :
  parseTagData host html = [] ->
  set cfg host b bc now nows (generateKey url) html st = (Fulfilled tt, st)
  /\ (st !! generateKey url = None ->
      forall bd now',
        get cfg Healthy bd now' (generateKey url)
          (set cfg host b bc now nows (generateKey url) html st).2
        = (Fulfilled None, st))
  /\ (forall st0, reachable cfg host st0 ->
        forall k record, st0 !! k = Some record -> tags record <> []).
Proof.
  intros Hparse.
  assert (Hset : set cfg host b bc now nows (generateKey url) html st
                 = (Fulfilled tt, st)).
  { unfold set. rewrite Hparse. now destruct b. }
  split; [exact Hset|]. split.
  - intros Hnone bd now'. rewrite Hset. unfold get. simpl. now rewrite Hnone.
  - intros st0 Hreach. apply (reachable_invariants st0 Hreach).
Qed.

(** C5. A [set] whose response yields the tags [T] resolves, and the
    record it puts under the key carries [T]; as long as that record is
    the one stored under the key, a [get] at most an expiry window later
    resolves to exactly [T]. *)
Theorem set_then_get_roundtrip (now : Z) (nows : nat -> Z) (bc : backend)
    (url html : jsstring) (T : list TagEntry) (st : store) :
  parseTagData host html = T -> T <> [] ->
  let k := generateKey url in
  let record := new_record host now k T in
  set cfg host Healthy bc now nows k html st
  = (Fulfilled tt, (cleanupOldEntries cfg bc nows (store_put record st)).2)
  /\ store_put record st !! k = Some record
  /\ (forall st' now' bd,
        st' !! k = Some record ->
        now' - now <= CACHE_EXPIRY_MS cfg ->
        get cfg Healthy bd now' k st' = (Fulfilled (Some T), st')).
Proof.
  intros Hparse Hne k record. split; [|split].
  - unfold set. rewrite Hparse.
    destruct T as [|tag T']; [congruence|]. reflexivity.
  - apply lookup_insert_eq.
  - intros st' now' bd Hk Hage. rewrite (get_found now' k record bd st' Hk).
    destruct (expired cfg now' record) eqn:He; [|reflexivity].
    apply expired_spec in He. simpl in He. lia.
Qed.

(** The sibling methods resolve when their request fails. *)
Lemma siblings_resolve_on_request_error e st :
  (forall bd now k, (get cfg (RequestFails e) bd now k st).1 = Fulfilled None)
  /\ (forall k, (delete (RequestFails e) k st).1 = Fulfilled tt)
  /\ (forall nows, (cleanupOldEntries cfg (RequestFails e) nows st).1 = Fulfilled tt)
  /\ (forall now0 now1,
        (getStats (RequestFails e) now0 now1 st).1 = Fulfilled stats_fallback)
  /\ (clearAll (RequestFails e) st).1 = Fulfilled tt.
Proof. repeat split. Qed.

(** C2, where the code departs from it. When the response has tags and
    the put request fails, the promise returned by [set] is rejected with
    the request's error and the store is unchanged: the rejection reaches
    the caller, whereas every sibling method resolves on a failed
    request. *)
Theorem set_put_failure_reaches_caller (e : DbError) (bc : backend) (now : Z)
    (nows : nat -> Z) (k html : jsstring) (st : store) :
  parseTagData host html <> [] ->
  set cfg host (RequestFails e) bc now nows k html st = (Rejected e, st)
  /\ (forall bd now', (get cfg (RequestFails e) bd now' k st).1 = Fulfilled None)
  /\ (delete (RequestFails e) k st).1 = Fulfilled tt
  /\ (clearAll (RequestFails e) st).1 = Fulfilled tt.
Proof.
  intros Hne. split.
  - unfold set. simpl. destruct (parseTagData host html) as [|tag rest].
    + congruence.
    + reflexivity.
  - repeat split.
Qed.

End Store.

(** ** Statistics *)

Lemma or_zero_id x : or_zero x = x.
Proof. unfold or_zero. destruct (Z.eqb_spec x 0); congruence. Qed.

Lemma foldr_min_init o t l :
  foldr Z.min (Z.min o t) l = Z.min t (foldr Z.min o l).
Proof. induction l as [|x l IH]; simpl; [lia|rewrite IH; lia]. Qed.

Lemma getStats_scan_spec cursor totalEntries totalSize oldestEntry :
  getStats_scan cursor totalEntries totalSize oldestEntry
  = (totalEntries + Z.of_nat (length cursor),
     totalSize + foldr Z.add 0 (size <$> cursor),
     foldr Z.min oldestEntry (timestamp <$> cursor)).
Proof.
  revert totalEntries totalSize oldestEntry.
  induction cursor as [|record rest IH]; intros e s o.
  - simpl. repeat (apply pair_equal_spec; split); lia.
  - simpl getStats_scan.
    rewrite IH, or_zero_id, foldr_min_init, !fmap_cons. simpl foldr.
    rewrite length_cons, Nat2Z.inj_succ.
    repeat (apply pair_equal_spec; split); lia.
Qed.

Lemma foldr_add_Permutation (l1 l2 : list Z) :
  l1 ≡ₚ l2 -> foldr Z.add 0 l1 = foldr Z.add 0 l2.
Proof. induction 1; simpl; lia. Qed.

Lemma foldr_min_Permutation o (l1 l2 : list Z) :
  l1 ≡ₚ l2 -> foldr Z.min o l1 = foldr Z.min o l2.
Proof. induction 1; simpl; lia. Qed.

Lemma openCursor_Permutation (st : store) : openCursor st ≡ₚ stored_records st.
Proof. unfold openCursor, stored_records. now rewrite merge_sort_Permutation. Qed.

Lemma foldr_min_spec o (l : list Z) :
  foldr Z.min o l <= o
  /\ (forall t, t ∈ l -> foldr Z.min o l <= t)
  /\ (foldr Z.min o l = o \/ foldr Z.min o l ∈ l).
Proof.
  induction l as [|x l (IHo & IHl & IHm)]; simpl.
  - split; [lia|]. split; [intros t Ht; inversion Ht|now left].
  - split; [lia|]. split.
    + intros t [->|Ht]%elem_of_cons; [lia|]. specialize (IHl t Ht). lia.
    + destruct (Z.min_spec x (foldr Z.min o l)) as [[_ ->]|[_ ->]].
      * right. apply list_elem_of_here.
      * destruct IHm as [->|Hin]; [now left|right; now apply list_elem_of_further].
Qed.

(** *** Decimal digits *)

Lemma decimal_value_of_uint_acc d acc :
  foldl (fun a c => 10 * a + (c - 48)) (Z.pos acc) (js (NilEmpty.string_of_uint d))
  = Z.pos (Pos.of_uint_acc d acc).
Proof.
  revert acc. induction d; intros acc; simpl; [reflexivity|..];
    match goal with
    | |- foldl _ ?a _ = Z.pos (Pos.of_uint_acc _ ?b) =>
        replace a with (Z.pos b) by lia
    end; apply IHd.
Qed.

Lemma decimal_value_of_uint d :
  decimal_value (js (NilEmpty.string_of_uint d)) = Z.of_N (Pos.of_uint d).
Proof.
  unfold decimal_value. induction d; simpl; try reflexivity; try exact IHd;
    match goal with
    | |- foldl _ ?a _ = Z.pos (Pos.of_uint_acc _ ?b) =>
        replace a with (Z.pos b) by lia
    end; apply decimal_value_of_uint_acc.
Qed.

Lemma decimal_value_Number_toString n :
  0 <= n -> decimal_value (Number_toString n) = n.
Proof.
  intros Hn. destruct n as [|p|p]; [reflexivity| |lia].
  unfold Number_toString. simpl.
  pose proof (DecimalPos.Unsigned.of_to p) as Hp.
  pose proof (decimal_value_of_uint (Pos.to_uint p)) as Hd.
  rewrite Hp in Hd. simpl in Hd. rewrite <- Hd.
  destruct (Pos.to_uint p); reflexivity.
Qed.

Lemma decimal_value_leading_zeros k s :
  decimal_value (repeat 48 k ++ s) = decimal_value s.
Proof. unfold decimal_value. induction k; simpl; [reflexivity|exact IHk]. Qed.

Lemma filter_point_digits s :
  Forall is_decimal_digit s -> List.filter (fun c => negb (c =? 46)) s = s.
Proof.
  induction 1 as [|c s Hc _ IH]; simpl; [reflexivity|].
  unfold is_decimal_digit in Hc.
  destruct (Z.eqb_spec c 46); [lia|]. simpl. now rewrite IH.
Qed.

(** The string that [toFixed(2)] prints for a non-negative quotient has
    its digits, a point and two more digits, and denotes the rounded number
    of hundredths. *)
Lemma toFixed2_spec num den :
  0 <= num -> 0 < den ->
  hundredths_of_fixed2 (toFixed2 num den) = toFixed2_hundredths num den
  /\ exists a b, toFixed2 num den = a ++ js "." ++ b
                 /\ a <> [] /\ length b = 2%nat
                 /\ Forall is_decimal_digit a /\ Forall is_decimal_digit b.
Proof.
  intros Hnum Hden. unfold toFixed2.
  assert (Hh : 0 <= toFixed2_hundredths num den).
  { unfold toFixed2_hundredths. apply Z.div_pos; lia. }
  destruct (Number_toString_nonneg_digits _ Hh) as [Hdig _].
  pose proof (decimal_value_Number_toString _ Hh) as Hval.
  set (m0 := Number_toString (toFixed2_hundredths num den)) in *.
  set (m := repeat 48 (3 - length m0)%nat ++ m0).
  assert (Hlen : (3 <= length m)%nat).
  { unfold m. rewrite length_app, repeat_length. lia. }
  assert (Hm : Forall is_decimal_digit m).
  { unfold m. apply Forall_app. split; [|exact Hdig].
    apply Forall_forall. intros c Hc. apply list_elem_of_In, repeat_spec in Hc.
    subst c. unfold is_decimal_digit. lia. }
  assert (Hsplit : take (length m - 2) m ++ drop (length m - 2) m = m)
    by apply take_drop.
  assert (Ha : Forall is_decimal_digit (take (length m - 2) m)).
  { rewrite <- Hsplit in Hm. now apply Forall_app in Hm. }
  assert (Hb : Forall is_decimal_digit (drop (length m - 2) m)).
  { rewrite <- Hsplit in Hm. now apply Forall_app in Hm. }
  destruct (Z.ltb_spec num 0) as [|_]; [lia|]. simpl app at 1.
  split.
  - unfold hundredths_of_fixed2. rewrite !List.filter_app. simpl List.filter.
    rewrite (filter_point_digits _ Ha), (filter_point_digits _ Hb), Hsplit.
    unfold m. rewrite decimal_value_leading_zeros. exact Hval.
  - exists (take (length m - 2) m), (drop (length m - 2) m).
    split; [reflexivity|]. split.
    + intros Hnil. apply (f_equal length) in Hnil.
      rewrite length_take in Hnil. simpl in Hnil. lia.
    + split; [rewrite length_drop; lia|]. split; assumption.
Qed.

Lemma toFixed2_hundredths_tolerance totalSize :
  0 <= totalSize ->
  Z.abs (1024 * toFixed2_hundredths totalSize 1024 - 100 * totalSize) <= 512.
Proof.
  intros H. unfold toFixed2_hundredths. rewrite (Z.abs_eq totalSize) by exact H.
  pose proof (Z.div_mod (200 * totalSize + 1024) (2 * 1024) ltac:(lia)) as Hdm.
  pose proof (Z.mod_pos_bound (200 * totalSize + 1024) (2 * 1024) ltac:(lia)).
  lia.
Qed.

(** C9. On a healthy backend [getStats] resolves to an object with the
    properties [entries], [totalSizeKB] and [oldestEntryAge]: the number
    of stored records; a two-decimal string within half a hundredth of
    the sum of the recorded sizes divided by 1024; and the whole days
    between the final clock reading and the least of the stored
    timestamps and the initial reading. *)
Theorem getStats_accuracy (now0 now1 : Z) (st : store) :
  0 <= total_size st <= 2 ^ 53 ->
  exists kb age,
    getStats Healthy now0 now1 st
    = (Fulfilled [(js "entries", JNumber (Z.of_nat (base.size st)));
                  (js "totalSizeKB", JString kb);
                  (js "oldestEntryAge", JNumber age)], st)
    /\ Z.abs (1024 * hundredths_of_fixed2 kb - 100 * total_size st) <= 512
    /\ (exists a b, kb = a ++ js "." ++ b /\ a <> [] /\ length b = 2%nat
                    /\ Forall is_decimal_digit a /\ Forall is_decimal_digit b)
    /\ age = (now1 - oldest_timestamp now0 st) / MS_PER_DAY
    /\ oldest_timestamp now0 st <= now0
    /\ (forall record, record ∈ stored_records st ->
          oldest_timestamp now0 st <= timestamp record)
    /\ (oldest_timestamp now0 st = now0
        \/ exists record, record ∈ stored_records st
                          /\ timestamp record = oldest_timestamp now0 st).
Proof.
  intros [Hlo Hhi].
  exists (toFixed2 (total_size st) 1024),
         ((now1 - oldest_timestamp now0 st) / MS_PER_DAY).
  destruct (toFixed2_spec (total_size st) 1024 Hlo ltac:(lia)) as [Hval Hshape].
  destruct (foldr_min_spec now0 (timestamp <$> stored_records st))
    as (Hmin0 & Hminl & Hmine).
  split; [|split; [|split; [|split; [|split; [|split]]]]].
  - unfold getStats. simpl. rewrite getStats_scan_spec.
    rewrite openCursor_length.
    rewrite (foldr_add_Permutation (size <$> openCursor st) (size <$> stored_records st))
      by (now rewrite openCursor_Permutation).
    rewrite (foldr_min_Permutation now0 (timestamp <$> openCursor st)
               (timestamp <$> stored_records st))
      by (now rewrite openCursor_Permutation).
    reflexivity.
  - rewrite Hval. now apply toFixed2_hundredths_tolerance.
  - exact Hshape.
  - reflexivity.
  - exact Hmin0.
  - intros record Hr. apply Hminl. now apply list_elem_of_fmap_2.
  - destruct Hmine as [?|Hin]; [now left|right].
    apply list_elem_of_fmap in Hin as (record & Heq & Hr). eauto.
Qed.

(** C10. On an empty store, with the final clock reading less than a day
    after the initial one, [getStats] resolves to [entries = 0],
    [totalSizeKB] the string [0.00] and [oldestEntryAge = 0]; the fallback
    of the error paths has the number 0 for [totalSizeKB] instead. *)
Theorem getStats_empty_store (now0 now1 : Z) :
  now0 <= now1 < now0 + MS_PER_DAY ->
  getStats Healthy now0 now1 ∅
  = (Fulfilled [(js "entries", JNumber 0);
                (js "totalSizeKB", JString (js "0.00"));
                (js "oldestEntryAge", JNumber 0)], ∅)
  /\ (forall e, (getStats (RequestFails e) now0 now1 ∅).1 = Fulfilled stats_fallback)
  /\ (forall e, (getStats (InitRejected e) now0 now1 ∅).1 = Fulfilled stats_fallback)
  /\ get_property stats_fallback (js "totalSizeKB") = Some (JNumber 0)
  /\ JString (js "0.00") <> JNumber 0.
Proof.
  intros Hclock.
  split; [|repeat split; discriminate].
  assert (Hcursor : openCursor ∅ = []) by reflexivity.
  unfold getStats. simpl. rewrite Hcursor. simpl getStats_scan. cbv iota beta.
  replace ((now1 - now0) / MS_PER_DAY) with 0; [reflexivity|].
  symmetry. apply Z.div_small. lia.
Qed.

(** ** The statements at concrete inputs *)

Lemma keyPath_ok_empty : keyPath_ok ∅.
Proof. apply map_Forall_empty. Qed.

Lemma keyPath_ok_store_put record st :
  keyPath_ok st -> keyPath_ok (store_put record st).
Proof. intros H. apply map_Forall_insert_2; [reflexivity|exact H]. Qed.

Lemma scenario_store_keyPath_ok : keyPath_ok scenario_store.
Proof. repeat apply keyPath_ok_store_put. apply keyPath_ok_empty. Qed.

Lemma scenario_cursor :
  index_openCursor scenario_store = [record_A; record_B; record_C].
Proof. vm_compute. reflexivity. Qed.

(** Three calls of [set] at times 0, 10 and 20 with room for two: after
    the sweep of the third, A is gone and B and C are stored. *)
Example three_writes_room_for_two :
  let write t k st :=
    (set scenario_cfg sample_host Healthy Healthy t (fun _ => t) (js k)
       sample_html st).2 in
  write 20 "C"%string (write 10 "B"%string (write 0 "A"%string ∅))
  = store_put record_C (store_put record_B ∅).
Proof. vm_compute. reflexivity. Qed.

(** Room for two, three writes at times 0, 10 and 20: the sweep removes
    the first and keeps the other two. *)
Lemma cleanupOldEntries_deletes_union_witness :
  keyPath_ok scenario_store
  /\ cleanup_toDelete scenario_cfg (fun _ => 20) (index_openCursor scenario_store)
     = key <$> take 1 (index_openCursor scenario_store)
  /\ (forall record, record ∈ take 1 (index_openCursor scenario_store) ->
        (cleanupOldEntries scenario_cfg Healthy (fun _ => 20) scenario_store).2
          !! key record = None)
  /\ (forall record,
        record ∈ drop 1 (index_openCursor scenario_store) <->
        (cleanupOldEntries scenario_cfg Healthy (fun _ => 20) scenario_store).2
          !! key record = Some record).
Proof.
  split; [exact scenario_store_keyPath_ok|].
  destruct (cleanupOldEntries_deletes_union scenario_cfg (fun _ => 20)
              scenario_store scenario_store_keyPath_ok)
    as (_ & _ & _ & _ & _ & _ & _ & Hcap).
  destruct (Hcap 2%nat 1%nat eq_refl) as (H1 & H2 & H3 & _).
  - rewrite scenario_cursor. reflexivity.
  - rewrite scenario_cursor. intros [|[|[|i]]] record Hi; try discriminate Hi;
      injection Hi as <-; vm_compute; discriminate.
  - rewrite scenario_cursor. apply (bool_decide_unpack _). vm_compute. exact I.
  - split; [exact H1|]. split; [exact H2|exact H3].
Defined.

(** Record A, written at time 0, read one millisecond after the expiry
    window has elapsed and read exactly when it elapses. *)
Lemma get_expiry_on_read_witness :
  scenario_store !! js "A" = Some record_A
  /\ (forall bd, (get CONFIG Healthy bd 604800001 (js "A") scenario_store).1
                 = Fulfilled None)
  /\ (get CONFIG Healthy Healthy 604800001 (js "A") scenario_store).2
       !! js "A" = None
  /\ (forall bd, get CONFIG Healthy bd 604800000 (js "A") scenario_store
                 = (Fulfilled (Some (tags record_A)), scenario_store)).
Proof.
  assert (H : scenario_store !! js "A" = Some record_A) by (vm_compute; reflexivity).
  split; [exact H|].
  destruct (get_expiry_on_read CONFIG 604800001 (js "A") record_A scenario_store H)
    as [Hold _].
  destruct (get_expiry_on_read CONFIG 604800000 (js "A") record_A scenario_store H)
    as [_ Hfresh].
  destruct Hold as (H1 & _ & H3); [vm_compute; reflexivity|].
  split; [exact H1|]. split; [exact H3|].
  apply Hfresh. vm_compute. discriminate.
Defined.

Lemma set_without_tags_stores_nothing_witness :
  parseTagData sample_host error_html = []
  /\ set CONFIG sample_host Healthy Healthy 1700000000000 (fun _ => 1700000000000)
       (generateKey sample_url) error_html ∅
     = (Fulfilled tt, ∅)
  /\ get CONFIG Healthy Healthy 1700000000001 (generateKey sample_url)
       (set CONFIG sample_host Healthy Healthy 1700000000000
          (fun _ => 1700000000000) (generateKey sample_url) error_html ∅).2
     = (Fulfilled None, ∅).
Proof.
  split; [reflexivity|].
  destruct (set_without_tags_stores_nothing CONFIG sample_host Healthy Healthy
              1700000000000 (fun _ => 1700000000000) sample_url error_html ∅
              eq_refl) as (Hset & Hget & _).
  split; [exact Hset|]. apply Hget. reflexivity.
Defined.

(** A write to the empty store and a read one second later. *)
Lemma set_then_get_roundtrip_witness :
  parseTagData sample_host sample_html = scenario_tags
  /\ scenario_tags <> []
  /\ let st1 := (set CONFIG sample_host Healthy Healthy 1700000000000
                   (fun _ => 1700000000000) (generateKey sample_url)
                   sample_html ∅).2 in
     get CONFIG Healthy Healthy 1700000001000 (generateKey sample_url) st1
     = (Fulfilled (Some scenario_tags), st1).
Proof.
  assert (Hne : scenario_tags <> []) by (vm_compute; discriminate).
  split; [reflexivity|]. split; [exact Hne|].
  destruct (set_then_get_roundtrip CONFIG sample_host 1700000000000
              (fun _ => 1700000000000) Healthy sample_url sample_html
              scenario_tags ∅ eq_refl Hne) as (_ & _ & Hget).
  apply Hget.
  - vm_compute. reflexivity.
  - vm_compute. discriminate.
Defined.

Lemma getStats_accuracy_witness :
  0 <= total_size scenario_store <= 2 ^ 53
  /\ exists kb age,
       getStats Healthy 30 40 scenario_store
       = (Fulfilled [(js "entries", JNumber (Z.of_nat (base.size scenario_store)));
                     (js "totalSizeKB", JString kb);
                     (js "oldestEntryAge", JNumber age)], scenario_store)
       /\ Z.abs (1024 * hundredths_of_fixed2 kb - 100 * total_size scenario_store)
          <= 512.
Proof.
  assert (H : 0 <= total_size scenario_store <= 2 ^ 53)
    by (vm_compute; split; discriminate).
  split; [exact H|].
  destruct (getStats_accuracy 30 40 scenario_store H) as (kb & age & H1 & H2 & _).
  exists kb, age. split; [exact H1|exact H2].
Defined.

Lemma getStats_empty_store_witness :
  1700000000000 <= 1700000000005 < 1700000000000 + MS_PER_DAY
  /\ getStats Healthy 1700000000000 1700000000005 ∅
     = (Fulfilled [(js "entries", JNumber 0);
                   (js "totalSizeKB", JString (js "0.00"));
                   (js "oldestEntryAge", JNumber 0)], ∅).
Proof.
  assert (H : 1700000000000 <= 1700000000005 < 1700000000000 + MS_PER_DAY)
    by (unfold MS_PER_DAY; lia).
  split; [exact H|].
  apply (getStats_empty_store 1700000000000 1700000000005 H).
Defined.

(** A response with three tags and a put that fails for lack of quota. *)
Lemma set_put_failure_reaches_caller_witness :
  parseTagData sample_host sample_html <> []
  /\ set CONFIG sample_host (RequestFails QuotaExceededError) Healthy
       1700000000000 (fun _ => 1700000000000)
       (generateKey sample_url) sample_html ∅
     = (Rejected QuotaExceededError, ∅).
Proof.
  assert (Hne : parseTagData sample_host sample_html <> [])
    by (vm_compute; discriminate).
  split; [exact Hne|].
  apply (set_put_failure_reaches_caller CONFIG sample_host QuotaExceededError
           Healthy 1700000000000 (fun _ => 1700000000000)
           (generateKey sample_url) sample_html ∅ Hne).
Defined.

(** * Further properties of the cache *)

(** ** What a sweep leaves behind *)

Lemma index_openCursor_stored (st : store) record :
  record ∈ index_openCursor st -> exists k, st !! k = Some record.
Proof.
  unfold index_openCursor. rewrite merge_sort_Permutation, list_elem_of_fmap.
  intros ([k r] & -> & Hin). exists k. now apply elem_of_map_to_list.
Qed.

Lemma StronglySorted_lookup_lt {A} (R : relation A) (l : list A) i j x y :
  StronglySorted R l -> l !! i = Some x -> l !! j = Some y -> (i < j)%nat -> R x y.
Proof.
  intros Hs Hi Hj Hij. rewrite <- (take_drop (S i) l) in Hs.
  eapply StronglySorted_app_1_elem_of; [exact Hs| |].
  - apply elem_of_take. exists i. split; [exact Hi|lia].
  - apply list_elem_of_lookup. exists (j - S i)%nat. rewrite lookup_drop.
    now replace (S i + (j - S i))%nat with j by lia.
Qed.

Section SweepEffects.

Variable cfg : Config.

(** The keys a healthy sweep leaves are those of records it examined and
    did not mark. *)
Lemma cleanup_survivor now st k record :
  keyPath_ok st ->
  (cleanupOldEntries cfg Healthy now st).2 !! k = Some record ->
  st !! k = Some record
  /\ exists i, index_openCursor st !! i = Some record
               /\ ~ evicted_by_rule cfg (now i)
                      (Z.of_nat (length (index_openCursor st))) i record.
Proof.
  intros Hkeys Hk. simpl in Hk. rewrite delete_all_lookup in Hk.
  destruct (decide (k ∈ _)) as [|Hnot]; [discriminate|].
  split; [exact Hk|].
  pose proof (Hkeys k record Hk) as Hkey.
  assert (Hin : record ∈ index_openCursor st).
  { apply (index_openCursor_elem_of st Hkeys). now rewrite Hkey. }
  apply list_elem_of_lookup in Hin as [i Hi]. exists i. split; [exact Hi|].
  intros Hrule. apply Hnot. unfold cleanup_toDelete.
  destruct (cleanup_forEach_spec cfg now
              (Z.of_nat (length (index_openCursor st))) (index_openCursor st) 0 [])
    as (marked & -> & _ & Hmark & _).
  simpl. rewrite <- Hkey. now apply (Hmark i record).
Qed.

(** A sweep, whatever the backend does, only removes records. *)
Lemma cleanup_only_removes b now st k record :
  (cleanupOldEntries cfg b now st).2 !! k = Some record -> st !! k = Some record.
Proof.
  destruct b; simpl; auto. rewrite delete_all_lookup.
  now destruct (decide (k ∈ _)).
Qed.

Lemma cleanup_capacity (now : nat -> Z) (st : store) :
  keyPath_ok st ->
  Z.of_nat (base.size (cleanupOldEntries cfg Healthy now st).2)
  <= Z.max 0 (MAX_CACHE_SIZE cfg).
Proof.
  intros Hkeys.
  set (st' := (cleanupOldEntries cfg Healthy now st).2).
  set (c := index_openCursor st).
  set (m := Z.to_nat (Z.of_nat (length c) - MAX_CACHE_SIZE cfg)).
  assert (Hsub : (map_to_list st').*1 ⊆+ key <$> drop m c).
  { apply NoDup_submseteq; [apply NoDup_fst_map_to_list|].
    intros k Hk. apply list_elem_of_fmap in Hk as ([k' record] & -> & Hin).
    apply elem_of_map_to_list in Hin. simpl.
    destruct (cleanup_survivor now st k' record Hkeys Hin) as (Hst & i & Hi & Hrule).
    rewrite <- (Hkeys k' record Hst). apply list_elem_of_fmap_2.
    apply list_elem_of_lookup. exists (i - m)%nat. rewrite lookup_drop.
    replace (m + (i - m))%nat with i; [exact Hi|].
    unfold evicted_by_rule in Hrule. fold c in Hrule. unfold m. lia. }
  apply submseteq_length in Hsub.
  rewrite !length_fmap, length_map_to_list, length_drop in Hsub.
  unfold m in Hsub. lia.
Qed.

(** X1. After a healthy sweep the store holds at most [MAX_CACHE_SIZE]
    records (none when that bound is negative). *)
Theorem cleanup_restores_capacity (now : nat -> Z) (st : store) :
  keyPath_ok st ->
  Z.of_nat (base.size (cleanupOldEntries cfg Healthy now st).2)
  <= Z.max 0 (MAX_CACHE_SIZE cfg).
Proof. apply cleanup_capacity. Qed.

(** X2. With one clock reading [t] for the whole sweep: no record left is
    older than the expiry window at [t], and a second sweep at [t] finds
    nothing to delete. *)
Theorem cleanup_settles (t : Z) (st : store) :
  keyPath_ok st ->
  let st' := (cleanupOldEntries cfg Healthy (fun _ => t) st).2 in
  (forall k record, st' !! k = Some record ->
     t - timestamp record <= CACHE_EXPIRY_MS cfg)
  /\ cleanup_toDelete cfg (fun _ => t) (index_openCursor st') = []
  /\ (cleanupOldEntries cfg Healthy (fun _ => t) st').2 = st'.
Proof.
  intros Hkeys st'.
  assert (Hfresh : forall k record, st' !! k = Some record ->
                     t - timestamp record <= CACHE_EXPIRY_MS cfg).
  { intros k record Hk.
    destruct (cleanup_survivor _ st k record Hkeys Hk) as (_ & i & _ & Hrule).
    unfold evicted_by_rule in Hrule. lia. }
  assert (Hcap := cleanup_capacity (fun _ => t) st Hkeys). fold st' in Hcap.
  assert (Hnil : cleanup_toDelete cfg (fun _ => t) (index_openCursor st') = []).
  { unfold cleanup_toDelete.
    destruct (cleanup_forEach_spec cfg (fun _ => t)
                (Z.of_nat (length (index_openCursor st'))) (index_openCursor st') 0 [])
      as (marked & -> & _ & _ & Hout).
    simpl. apply elem_of_nil_inv. intros k Hk.
    destruct (Hout k Hk) as (j & record & Hj & _ & Hrule).
    assert (Hlen : (j < length (index_openCursor st'))%nat)
      by (apply lookup_lt_is_Some; eauto).
    apply list_elem_of_lookup_2, index_openCursor_stored in Hj as [k' Hk'].
    specialize (Hfresh k' record Hk').
    unfold index_openCursor in Hlen.
    rewrite length_fmap, merge_sort_Permutation, length_map_to_list in Hlen.
    unfold index_openCursor in Hrule.
    rewrite length_fmap, merge_sort_Permutation, length_map_to_list in Hrule.
    unfold evicted_by_rule in Hrule. simpl in Hrule. lia. }
  split; [exact Hfresh|]. split; [exact Hnil|].
  simpl. now rewrite Hnil.
Qed.

(** X3. A store within capacity whose records are all within the expiry
    window at every reading is left as it is. *)
Theorem cleanup_noop_when_fresh_and_small (b : backend) (now : nat -> Z)
    (st : store) :
  Z.of_nat (base.size st) <= MAX_CACHE_SIZE cfg ->
  (forall k record i, st !! k = Some record ->
     now i - timestamp record <= CACHE_EXPIRY_MS cfg) ->
  (cleanupOldEntries cfg b now st).2 = st.
Proof.
  intros Hsize Hfresh. destruct b; simpl; auto.
  unfold cleanup_toDelete. rewrite cleanup_forEach_capacity.
  - replace (length (index_openCursor st)) with (base.size st).
    + replace (Z.to_nat (Z.of_nat (base.size st) - MAX_CACHE_SIZE cfg) - 0)%nat
        with 0%nat by lia.
      now rewrite take_0.
    + unfold index_openCursor.
      now rewrite length_fmap, merge_sort_Permutation, length_map_to_list.
  - intros j record Hj.
    apply list_elem_of_lookup_2, index_openCursor_stored in Hj as [k Hk].
    destruct (expired cfg (now (0 + j)%nat) record) eqn:He; [|reflexivity].
    apply expired_spec in He. specialize (Hfresh k record (0 + j)%nat Hk). lia.
Qed.

End SweepEffects.

(** ** Writes, reads and faults *)

Section StoreEffects.

Variable cfg : Config.
Variable host : Host.

(** A record written when every other stored record is strictly older
    comes last in the timestamp index. *)
Lemma newest_record_is_last (st : store) (record : CacheRecord) i :
  keyPath_ok st ->
  (forall k' r, st !! k' = Some r -> k' <> key record ->
     timestamp r < timestamp record) ->
  index_openCursor st !! i = Some record ->
  length (index_openCursor st) = S i.
Proof.
  intros Hkeys Hold Hi.
  assert (Hlt : (i < length (index_openCursor st))%nat)
    by (apply lookup_lt_is_Some; eauto).
  destruct (decide (S i < length (index_openCursor st))%nat) as [Hmore|]; [|lia].
  exfalso. apply lookup_lt_is_Some_2 in Hmore as [r Hr].
  pose proof (StronglySorted_lookup_lt _ _ i (S i) record r
                (index_openCursor_sorted st) Hi Hr ltac:(lia)) as Hle.
  simpl in Hle.
  assert (Hst : st !! key r = Some r).
  { apply (index_openCursor_elem_of st Hkeys). eapply list_elem_of_lookup_2, Hr. }
  assert (Hne : key r <> key record).
  { intros Heq.
    assert (i = S i); [|lia].
    apply (NoDup_lookup _ i (S i) (key record) (index_openCursor_NoDup st Hkeys));
      rewrite list_lookup_fmap; [rewrite Hi|rewrite Hr]; simpl; congruence. }
  specialize (Hold (key r) r Hst Hne). lia.
Qed.

(** X4. A [set] on a healthy backend keeps its own record through the sweep
    it starts, provided there is room for at least one record, the other
    stored records are strictly older, and the sweep runs within the
    expiry window of the write; a [get] within the window then returns the
    tags. *)
Theorem set_survives_own_sweep (now : Z) (nows : nat -> Z) (bc : backend)
    (k html : jsstring) (st : store) :
  keyPath_ok st ->
  parseTagData host html <> [] ->
  1 <= MAX_CACHE_SIZE cfg ->
  (forall k' r, st !! k' = Some r -> k' <> k -> timestamp r < now) ->
  (forall i, nows i - now <= CACHE_EXPIRY_MS cfg) ->
  let st' := (set cfg host Healthy bc now nows k html st).2 in
  st' !! k = Some (new_record host now k (parseTagData host html))
  /\ (forall now' bd, now' - now <= CACHE_EXPIRY_MS cfg ->
        get cfg Healthy bd now' k st'
        = (Fulfilled (Some (parseTagData host html)), st')).
Proof.
  intros Hkeys Hne Hmax Hold Hclock st'.
  set (record := new_record host now k (parseTagData host html)).
  set (st1 := store_put record st).
  assert (Hst' : st' = (cleanupOldEntries cfg bc nows st1).2).
  { unfold st', set. simpl.
    destruct (parseTagData host html) eqn:E; [congruence|reflexivity]. }
  assert (Hkeys1 : keyPath_ok st1).
  { apply map_Forall_insert_2; [reflexivity|exact Hkeys]. }
  assert (Hput : st1 !! k = Some record) by apply lookup_insert_eq.
  assert (Hkept : st' !! k = Some record).
  { rewrite Hst'. destruct bc; simpl; auto.
    rewrite delete_all_lookup. rewrite decide_False; [exact Hput|].
    intros Hin. unfold cleanup_toDelete in Hin.
    destruct (cleanup_forEach_spec cfg nows
                (Z.of_nat (length (index_openCursor st1))) (index_openCursor st1) 0 [])
      as (marked & Hrun & _ & _ & Hout).
    rewrite Hrun in Hin. simpl in Hin.
    destruct (Hout k Hin) as (j & r & Hj & Hkey & Hrule).
    assert (Hr : st1 !! key r = Some r).
    { apply (index_openCursor_elem_of st1 Hkeys1). eapply list_elem_of_lookup_2, Hj. }
    rewrite Hkey, Hput in Hr. injection Hr as <-.
    assert (Hlast : length (index_openCursor st1) = S j).
    { apply (newest_record_is_last st1 record j Hkeys1); [|exact Hj].
      intros k' r Hk' Hne'. simpl in Hne'. simpl.
      unfold st1, store_put in Hk'. simpl in Hk'.
      rewrite lookup_insert_ne in Hk' by congruence. now apply (Hold k' r). }
    unfold evicted_by_rule in Hrule. rewrite Hlast in Hrule.
    change (0 + j)%nat with j in Hrule.
    change (timestamp record) with now in Hrule.
    specialize (Hclock j). lia. }
  split; [exact Hkept|].
  intros now' bd Hage. rewrite (get_found cfg now' k record bd st' Hkept).
  destruct (expired cfg now' record) eqn:He; [|reflexivity].
  apply expired_spec in He. simpl in He. lia.
Qed.

Lemma get_hit_inv (b bd : backend) (now : Z) (k : jsstring) (st : store) T :
  (get cfg b bd now k st).1 = Fulfilled (Some T) ->
  (get cfg b bd now k st).2 = st
  /\ exists record, st !! k = Some record /\ tags record = T
                    /\ now - timestamp record <= CACHE_EXPIRY_MS cfg.
Proof.
  destruct b; simpl; try discriminate.
  destruct (st !! k) as [record|] eqn:Hk; simpl; try discriminate.
  destruct (expired cfg now record) eqn:He; simpl; try discriminate.
  intros [= <-]. split; [reflexivity|]. exists record.
  split; [reflexivity|]. split; [reflexivity|].
  destruct (Z_le_gt_dec (now - timestamp record) (CACHE_EXPIRY_MS cfg)) as [|Hgt];
    [assumption|].
  apply expired_spec in Hgt. congruence.
Qed.

(** X6. [get] touches no key but the one it is asked for; a key without
    record gives null and leaves the store as it is; and a read that
    returns tags found them in a stored record within the expiry window
    and changed nothing. *)
Theorem get_confined_to_key (b bd : backend) (now : Z) (k : jsstring)
    (st : store) :
  (forall k', k' <> k -> (get cfg b bd now k st).2 !! k' = st !! k')
  /\ (st !! k = None -> get cfg Healthy bd now k st = (Fulfilled None, st))
  /\ (forall T, (get cfg b bd now k st).1 = Fulfilled (Some T) ->
        (get cfg b bd now k st).2 = st
        /\ exists record, st !! k = Some record /\ tags record = T
                          /\ now - timestamp record <= CACHE_EXPIRY_MS cfg).
Proof.
  split; [|split].
  - intros k' Hne. destruct b; simpl; auto.
    destruct (st !! k) as [record|]; simpl; auto.
    destruct (expired cfg now record); simpl; auto.
    destruct bd; simpl; auto. apply lookup_delete_ne. congruence.
  - intros Hnone. unfold get. simpl. now rewrite Hnone.
  - intros T. apply get_hit_inv.
Qed.

(** X7. After a healthy [delete] the key reads as absent, the other keys are
    as before, and deleting again, or deleting a key that was never
    stored, changes nothing. *)
Theorem delete_then_get (k : jsstring) (st : store) :
  let st' := (delete Healthy k st).2 in
  (forall bd now, get cfg Healthy bd now k st' = (Fulfilled None, st'))
  /\ (forall k', k' <> k -> st' !! k' = st !! k')
  /\ (delete Healthy k st').2 = st'
  /\ (st !! k = None -> st' = st).
Proof.
  simpl. split; [|split; [|split]].
  - intros bd now. unfold get. simpl. now rewrite lookup_delete_eq.
  - intros k' Hne. apply lookup_delete_ne. congruence.
  - apply delete_id, lookup_delete_eq.
  - apply delete_id.
Qed.

(** X8. After a healthy [clearAll] every key reads as absent and the
    statistics are those of an empty cache. *)
Theorem clearAll_then_read (st : store) (now0 now1 : Z) :
  now0 <= now1 < now0 + MS_PER_DAY ->
  let st' := (clearAll Healthy st).2 in
  (forall bd now k, get cfg Healthy bd now k st' = (Fulfilled None, st'))
  /\ (getStats Healthy now0 now1 st').1
     = Fulfilled [(js "entries", JNumber 0);
                  (js "totalSizeKB", JString (js "0.00"));
                  (js "oldestEntryAge", JNumber 0)].
Proof.
  intros Hclock. simpl. split.
  - intros bd now k. unfold get. simpl. now rewrite lookup_empty.
  - assert (Hcursor : openCursor ∅ = []) by reflexivity.
    unfold getStats. simpl. rewrite Hcursor. simpl.
    replace ((now1 - now0) / MS_PER_DAY) with 0; [reflexivity|].
    symmetry. apply Z.div_small. lia.
Qed.

(** When the database could not be opened, every method resolves with
    its default and the store is not touched; not even [clearAll] or a
    [set] with tags has an effect. *)
Theorem failed_open_is_contained (e : DbError) (st : store) :
  (forall bd now k, get cfg (InitRejected e) bd now k st = (Fulfilled None, st))
  /\ (forall bc now nows k html,
        set cfg host (InitRejected e) bc now nows k html st = (Fulfilled tt, st))
  /\ (forall k, delete (InitRejected e) k st = (Fulfilled tt, st))
  /\ (forall nows, cleanupOldEntries cfg (InitRejected e) nows st = (Fulfilled tt, st))
  /\ (forall now0 now1,
        getStats (InitRejected e) now0 now1 st = (Fulfilled stats_fallback, st))
  /\ clearAll (InitRejected e) st = (Fulfilled tt, st).
Proof. repeat split. Qed.

Lemma reachable_record (st : store) (k : jsstring) (record : CacheRecord) :
  reachable cfg host st ->
  st !! k = Some record ->
  key record = k
  /\ tags record <> []
  /\ size record = calculateSize (tags record)
  /\ timestampFormatted record = formatTimestamp host (timestamp record)
  /\ Forall (fun tag => no_ws (name tag)) (tags record).
Proof.
  intros Hreach Hk.
  assert (Hinv : map_Forall (fun k r =>
            exists now html, parseTagData host html <> []
              /\ r = new_record host now k (parseTagData host html)) st).
  { clear Hk. induction Hreach as [|c st _ IH]; [apply map_Forall_empty|].
    apply run_preserves; [|exact IH]. intros now k' html Hne. eauto. }
  destruct (Hinv k record Hk) as (now & html & Hne & ->). simpl.
  repeat split; try assumption.
  apply Forall_forall. intros tag Htag.
  apply list_elem_of_lookup in Htag as [i Hi].
  unfold parseTagData in Hi.
  destruct (DOMParser_rows host html) as [|rows]; [discriminate|].
  pose proof (filter_Boolean_map_row_to_tag rows) as HF.
  destruct (Forall2_lookup_r _ _ _ _ _ HF Hi) as (row & _ & Hrow).
  destruct row as [[link|] [cell|]]; try discriminate.
  injection Hrow as <-. simpl.
  rewrite trim_no_ws; apply replace_ws_runs_no_ws.
Qed.

(** X10. Every record of a store the script can reach was built by [set] from
    a response: it is filed under its key, has at least one tag, carries
    the size and the formatted time computed from its tags and timestamp,
    and its tag names hold no whitespace. *)
Theorem reachable_records_wellformed (st : store) (k : jsstring)
    (record : CacheRecord) :
  reachable cfg host st ->
  st !! k = Some record ->
  key record = k
  /\ tags record <> []
  /\ size record = calculateSize (tags record)
  /\ timestampFormatted record = formatTimestamp host (timestamp record)
  /\ Forall (fun tag => no_ws (name tag)) (tags record).
Proof. apply reachable_record. Qed.

(** X11. A read that hits in a reachable store never returns an empty list,
    so the caller's test [cachedTags && cachedTags.length > 0] accepts
    every hit. *)
Theorem get_hit_is_nonempty (st : store) (b bd : backend) (now : Z)
    (k : jsstring) (T : list TagEntry) :
  reachable cfg host st ->
  (get cfg b bd now k st).1 = Fulfilled (Some T) ->
  T <> [].
Proof.
  intros Hreach Hget.
  destruct (get_hit_inv b bd now k st T Hget) as (_ & record & Hk & <- & _).
  apply (reachable_record st k record Hreach Hk).
Qed.

(** X5. A [set] adds or replaces the record of its own key only: under any
    other key a record found afterwards was there before, unchanged. *)
Theorem set_confined_to_key (b bc : backend) (now : Z) (nows : nat -> Z)
    (k html : jsstring) (st : store) (k' : jsstring) (record : CacheRecord) :
  k' <> k ->
  (set cfg host b bc now nows k html st).2 !! k' = Some record ->
  st !! k' = Some record.
Proof.
  intros Hne. unfold set.
  destruct b; simpl; auto;
    destruct (parseTagData host html) as [|tag tags']; simpl; auto.
  intros Hk. apply cleanup_only_removes in Hk.
  unfold store_put in Hk. simpl in Hk.
  now rewrite lookup_insert_ne in Hk by congruence.
Qed.

End StoreEffects.

(** ** Lengths of printed numbers *)

Lemma decimal_value_acc a (ds : jsstring) :
  foldl (fun acc c => 10 * acc + (c - 48)) a ds
  = a * 10 ^ Z.of_nat (length ds) + decimal_value ds.
Proof.
  unfold decimal_value. revert a.
  induction ds as [|c ds IH]; intros a.
  - simpl. lia.
  - simpl foldl. rewrite (IH (10 * a + (c - 48))), (IH (10 * 0 + (c - 48))).
    rewrite length_cons, Nat2Z.inj_succ, Z.pow_succ_r by lia. lia.
Qed.

Lemma decimal_value_bounds (ds : jsstring) :
  Forall is_decimal_digit ds -> 0 <= decimal_value ds < 10 ^ Z.of_nat (length ds).
Proof.
  induction 1 as [|c ds Hc _ IH].
  - unfold decimal_value. simpl. lia.
  - unfold decimal_value in *. simpl foldl. rewrite decimal_value_acc.
    rewrite length_cons, Nat2Z.inj_succ, Z.pow_succ_r by lia.
    unfold is_decimal_digit, decimal_value in *.
    pose proof (Z.pow_pos_nonneg 10 (Z.of_nat (length ds)) ltac:(lia) ltac:(lia)).
    nia.
Qed.

Lemma decimal_value_leading_digit c (ds : jsstring) :
  49 <= c <= 57 -> Forall is_decimal_digit ds ->
  10 ^ Z.of_nat (length ds) <= decimal_value (c :: ds).
Proof.
  intros Hc Hds. pose proof (decimal_value_bounds ds Hds) as Hb.
  unfold decimal_value in *. simpl foldl. rewrite decimal_value_acc.
  unfold decimal_value. nia.
Qed.

Lemma Pos_to_uint_normal p :
  match Pos.to_uint p with
  | Decimal.Nil | Decimal.D0 _ => False
  | _ => True
  end.
Proof.
  pose proof (DecimalPos.Unsigned.to_of (Pos.to_uint p)) as H.
  rewrite DecimalPos.Unsigned.of_to in H. simpl in H.
  pose proof (DecimalPos.Unsigned.to_uint_nonzero p) as Hnz.
  pose proof (DecimalFacts.nzhead_nonzero (Pos.to_uint p)) as Hhead.
  unfold Decimal.unorm in H.
  destruct (Decimal.nzhead (Pos.to_uint p)) eqn:E;
    try (rewrite H; exact I).
  - congruence.
  - exfalso. eapply Hhead. reflexivity.
Qed.

(** A positive number is printed with as many digits as its magnitude
    requires: no leading zero. *)
Lemma Number_toString_magnitude n :
  0 < n ->
  10 ^ (Z.of_nat (length (Number_toString n)) - 1) <= n
  < 10 ^ Z.of_nat (length (Number_toString n)).
Proof.
  intros Hn.
  destruct (Number_toString_nonneg_digits n ltac:(lia)) as [Hdig _].
  pose proof (decimal_value_Number_toString n ltac:(lia)) as Hval.
  pose proof (decimal_value_bounds _ Hdig) as Hb. rewrite Hval in Hb.
  split; [|lia].
  destruct n as [|p|p]; try lia.
  pose proof (Pos_to_uint_normal p) as Hnorm.
  assert (Hshape : exists c ds,
             Number_toString (Z.pos p) = c :: ds /\ 49 <= c <= 57).
  { unfold Number_toString. simpl.
    destruct (Pos.to_uint p); try contradiction; simpl;
      eexists _, _; (split; [reflexivity|vm_compute; split; discriminate]). }
  destruct Hshape as (c & ds & Hs & Hc). rewrite Hs in *.
  apply Forall_cons in Hdig as [_ Hds].
  rewrite length_cons.
  replace (Z.of_nat (S (length ds)) - 1) with (Z.of_nat (length ds)) by lia.
  rewrite <- Hval. now apply decimal_value_leading_digit.
Qed.

Lemma Number_toString_length_le n k :
  0 <= n < 10 ^ Z.of_nat k -> (1 <= k)%nat ->
  (1 <= length (Number_toString n) <= k)%nat.
Proof.
  intros [Hlo Hhi] Hk.
  destruct (Z.eq_dec n 0) as [->|Hne]; [simpl; lia|].
  pose proof (Number_toString_magnitude n ltac:(lia)) as [Hm1 Hm2].
  destruct (Number_toString_nonneg_digits n Hlo) as [_ Hnil].
  destruct (Number_toString n) as [|c s] eqn:E; [congruence|].
  split; [simpl; lia|].
  destruct (le_lt_dec (length (c :: s)) k) as [|Hgt]; [assumption|exfalso].
  assert (10 ^ Z.of_nat k <= 10 ^ (Z.of_nat (length (c :: s)) - 1))
    by (apply Z.pow_le_mono_r; lia).
  lia.
Qed.

Lemma Number_toString_length_ge n k :
  10 ^ (Z.of_nat k - 1) <= n -> (1 <= k)%nat ->
  (k <= length (Number_toString n))%nat.
Proof.
  intros Hlo Hk.
  assert (Hpos : 0 < n).
  { pose proof (Z.pow_pos_nonneg 10 (Z.of_nat k - 1) ltac:(lia) ltac:(lia)). lia. }
  pose proof (Number_toString_magnitude n Hpos) as [_ Hm2].
  destruct (le_lt_dec k (length (Number_toString n))) as [|Hlt]; [assumption|exfalso].
  assert (10 ^ Z.of_nat (length (Number_toString n)) <= 10 ^ (Z.of_nat k - 1))
    by (apply Z.pow_le_mono_r; lia).
  lia.
Qed.

Lemma Number_toString_leading_digit n :
  0 < n -> exists c ds, Number_toString n = c :: ds /\ 49 <= c <= 57.
Proof.
  intros Hn. destruct n as [|p|p]; try lia.
  pose proof (Pos_to_uint_normal p) as Hnorm.
  unfold Number_toString. simpl.
  destruct (Pos.to_uint p); try contradiction; simpl;
    eexists _, _; (split; [reflexivity|vm_compute; split; discriminate]).
Qed.

(** Distinct numbers are printed differently. *)
Lemma Number_toString_inj a b :
  0 <= a -> 0 <= b -> Number_toString a = Number_toString b -> a = b.
Proof.
  intros Ha Hb H.
  rewrite <- (decimal_value_Number_toString a Ha),
          <- (decimal_value_Number_toString b Hb).
  now rewrite H.
Qed.

Lemma int32_congruent_eq a b :
  - 2 ^ 31 <= a < 2 ^ 31 -> - 2 ^ 31 <= b < 2 ^ 31 ->
  (a - b) mod 2 ^ 32 = 0 -> a = b.
Proof. intros Ha Hb H. Z.div_mod_to_equations. lia. Qed.

Lemma generateKey_loop_congruent url :
  - 2 ^ 31 <= generateKey_loop url 0 < 2 ^ 31
  /\ (generateKey_loop url 0 - poly31 url 0) mod 2 ^ 32 = 0.
Proof.
  destruct (generateKey_loop_poly url 0 ltac:(lia)) as (k & Hk & Hr).
  split; [exact Hr|]. rewrite Hk.
  replace (poly31 url 0 + k * 2 ^ 32 - poly31 url 0) with (k * 2 ^ 32) by lia.
  apply Z_mod_mult.
Qed.

(** C8. [generateKey] returns a key for every URL (the empty URL gives
    [litd_0]). The key is the prefix [litd_] followed by [digits], where
    [digits] is the decimal numeral, without sign and without leading
    zero, whose value is the absolute value of [hash]; [hash] is the
    32-bit integer congruent modulo 2^32 to the base-31 polynomial of the
    code units of the URL. The key depends on the URL through that
    absolute value only: two URLs get the same key exactly when the
    absolute values of their hashes agree, so the same URL always gets
    the same key. *)
Theorem generateKey_deterministic_total (url : jsstring) :
  generateKey [] = js "litd_0"
  /\ exists hash digits,
       - 2 ^ 31 <= hash < 2 ^ 31
       /\ (hash - poly31 url 0) mod 2 ^ 32 = 0
       /\ generateKey url = js "litd_" ++ digits
       /\ digits <> []
       /\ Forall is_decimal_digit digits
       /\ decimal_value digits = Z.abs hash
       /\ (digits = [48] \/ exists c rest, digits = c :: rest /\ c <> 48)
       /\ (forall url' hash',
             - 2 ^ 31 <= hash' < 2 ^ 31 ->
             (hash' - poly31 url' 0) mod 2 ^ 32 = 0 ->
             (generateKey url' = generateKey url <-> Z.abs hash' = Z.abs hash)).
Proof.
  split; [reflexivity|].
  destruct (generateKey_loop_congruent url) as [Hr Hc].
  exists (generateKey_loop url 0), (Number_toString (Z.abs (generateKey_loop url 0))).
  split; [exact Hr|]. split; [exact Hc|]. split; [reflexivity|].
  destruct (Number_toString_nonneg_digits (Z.abs (generateKey_loop url 0))
              ltac:(lia)) as [Hdig Hne].
  split; [exact Hne|]. split; [exact Hdig|].
  split; [apply decimal_value_Number_toString; lia|]. split.
  - destruct (Z.eq_dec (Z.abs (generateKey_loop url 0)) 0) as [->|Hnz];
      [left; reflexivity|right].
    destruct (Number_toString_leading_digit (Z.abs (generateKey_loop url 0))
                ltac:(lia)) as (c & ds & Hs & Hcd).
    exists c, ds. split; [exact Hs|lia].
  - intros url' hash' Hr' Hc'.
    destruct (generateKey_loop_congruent url') as [Hr'' Hc''].
    assert (hash' = generateKey_loop url' 0) as ->.
    { apply int32_congruent_eq; [exact Hr'|exact Hr''|].
      replace (hash' - generateKey_loop url' 0)
        with ((hash' - poly31 url' 0) - (generateKey_loop url' 0 - poly31 url' 0))
        by lia.
      rewrite Zminus_mod, Hc', Hc''. reflexivity. }
    unfold generateKey. split.
    + intros H. apply app_inv_head in H.
      apply Number_toString_inj in H; [exact H|lia|lia].
    + intros ->. reflexivity.
Qed.

(** X12. The key is short: the prefix and between one and ten digits. *)
Theorem generateKey_length (url : jsstring) :
  (6 <= length (generateKey url) <= 15)%nat.
Proof.
  unfold generateKey. rewrite length_app.
  destruct (generateKey_loop_poly url 0 ltac:(lia)) as (_ & _ & Hr).
  pose proof (Number_toString_length_le (Z.abs (generateKey_loop url 0)) 10
                ltac:(simpl; lia) ltac:(lia)).
  simpl length. lia.
Qed.

(** ** The formatted time of a record *)

Lemma padStart2_two_digits n :
  0 <= n <= 99 ->
  length (padStart2 (Number_toString n)) = 2%nat
  /\ Forall is_decimal_digit (padStart2 (Number_toString n))
  /\ decimal_value (padStart2 (Number_toString n)) = n.
Proof.
  intros Hn. unfold padStart2.
  pose proof (Number_toString_length_le n 2 ltac:(simpl; lia) ltac:(lia)) as Hlen.
  destruct (Number_toString_nonneg_digits n ltac:(lia)) as [Hdig _].
  split; [|split].
  - rewrite length_app, repeat_length. lia.
  - apply Forall_app. split; [|exact Hdig].
    apply Forall_forall. intros c Hc. apply list_elem_of_In, repeat_spec in Hc.
    subst c. unfold is_decimal_digit. lia.
  - rewrite decimal_value_leading_zeros. apply decimal_value_Number_toString. lia.
Qed.

(** X13. When the host's getters are in their calendar ranges and the year has
    four digits, the formatted time is [dd.mm.yyyy hh:mm]: sixteen code
    units whose digit groups read back as the day, the month counted from
    one, the year, the hours and the minutes. *)
Theorem formatTimestamp_layout (host : Host) (t : Z) :
  1 <= Date_getDate host t <= 31 ->
  0 <= Date_getMonth host t <= 11 ->
  1000 <= Date_getFullYear host t <= 9999 ->
  0 <= Date_getHours host t <= 23 ->
  0 <= Date_getMinutes host t <= 59 ->
  exists dd mm yyyy hh mi,
    formatTimestamp host t
    = dd ++ js "." ++ mm ++ js "." ++ yyyy ++ js " " ++ hh ++ js ":" ++ mi
    /\ length (formatTimestamp host t) = 16%nat
    /\ (length dd = 2 /\ length mm = 2 /\ length yyyy = 4
        /\ length hh = 2 /\ length mi = 2)%nat
    /\ Forall is_decimal_digit (dd ++ mm ++ yyyy ++ hh ++ mi)
    /\ decimal_value dd = Date_getDate host t
    /\ decimal_value mm = Date_getMonth host t + 1
    /\ decimal_value yyyy = Date_getFullYear host t
    /\ decimal_value hh = Date_getHours host t
    /\ decimal_value mi = Date_getMinutes host t.
Proof.
  intros Hd Hm Hy Hh Hmi.
  destruct (padStart2_two_digits (Date_getDate host t) ltac:(lia)) as (Ld & Dd & Vd).
  destruct (padStart2_two_digits (Date_getMonth host t + 1) ltac:(lia)) as (Lm & Dm & Vm).
  destruct (padStart2_two_digits (Date_getHours host t) ltac:(lia)) as (Lh & Dh & Vh).
  destruct (padStart2_two_digits (Date_getMinutes host t) ltac:(lia)) as (Li & Di & Vi).
  pose proof (Number_toString_length_le (Date_getFullYear host t) 4
                ltac:(simpl; lia) ltac:(lia)) as Ly1.
  pose proof (Number_toString_length_ge (Date_getFullYear host t) 4
                ltac:(simpl; lia) ltac:(lia)) as Ly2.
  destruct (Number_toString_nonneg_digits (Date_getFullYear host t) ltac:(lia))
    as [Dy _].
  eexists _, _, _, _, _. split; [reflexivity|].
  split; [unfold formatTimestamp; rewrite !length_app; simpl length; lia|].
  split; [repeat split; first [assumption|lia]|].
  split.
  { apply Forall_app; split; [exact Dd|]. apply Forall_app; split; [exact Dm|].
    apply Forall_app; split; [exact Dy|]. apply Forall_app; split; assumption. }
  repeat split; try assumption.
  apply decimal_value_Number_toString. lia.
Qed.

Lemma formatTimestamp_layout_witness :
  exists dd mm yyyy hh mi,
    formatTimestamp sample_host 1700000000000
    = dd ++ js "." ++ mm ++ js "." ++ yyyy ++ js " " ++ hh ++ js ":" ++ mi
    /\ decimal_value dd = 14 /\ decimal_value mm = 11
    /\ decimal_value yyyy = 2023 /\ decimal_value hh = 22
    /\ decimal_value mi = 13.
Proof.
  destruct (formatTimestamp_layout sample_host 1700000000000)
    as (dd & mm & yyyy & hh & mi & H1 & _ & _ & _ & H2 & H3 & H4 & H5 & H6);
    try (vm_compute; split; discriminate).
  exists dd, mm, yyyy, hh, mi.
  split; [exact H1|]. split; [exact H2|]. split; [exact H3|].
  split; [exact H4|]. split; [exact H5|exact H6].
Defined.

(** ** The recorded size *)

Lemma jsstring_ind2 (P : jsstring -> Prop) :
  P [] -> (forall c, P [c]) ->
  (forall c d s, P s -> P (d :: s) -> P (c :: d :: s)) ->
  forall s, P s.
Proof.
  intros H0 H1 H2 s.
  enough (H : P s /\ forall c, P (c :: s)) by apply H.
  induction s as [|d s [IHs IHc]]; [split; auto|].
  split; [apply IHc|]. intros c. apply H2; auto.
Qed.

Lemma Blob_size_ascii_prefix (a b : jsstring) :
  Forall (fun c => c < 128) a -> Blob_size (a ++ b) = Z.of_nat (length a) + Blob_size b.
Proof.
  induction 1 as [|c a Hc _ IH]; [simpl; lia|].
  rewrite <- app_comm_cons. simpl Blob_size.
  destruct (Z.ltb_spec c 128); [|lia]. rewrite IH, length_cons. lia.
Qed.

Lemma Blob_size_cons_not_low c (s : jsstring) :
  starts_without_low_surrogate s ->
  Blob_size (c :: s)
  = (if c <? 128 then 1 else if c <? 2048 then 2 else 3) + Blob_size s.
Proof.
  intros Hs. simpl.
  destruct (c <? 128); [reflexivity|]. destruct (c <? 2048); [reflexivity|].
  destruct (is_high_surrogate c); [|reflexivity].
  destruct s as [|d s]; [reflexivity|]. simpl in Hs. now rewrite Hs.
Qed.

Lemma Blob_size_cons2 c d (s : jsstring) :
  Blob_size (c :: d :: s)
  = if c <? 128 then 1 + Blob_size (d :: s)
    else if c <? 2048 then 2 + Blob_size (d :: s)
    else if is_high_surrogate c
         then (if is_low_surrogate d then 4 + Blob_size s
               else 3 + Blob_size (d :: s))
         else 3 + Blob_size (d :: s).
Proof. reflexivity. Qed.

(** Sizes add up across a boundary that does not split a surrogate
    pair. *)
Lemma Blob_size_app (a b : jsstring) :
  starts_without_low_surrogate b ->
  Blob_size (a ++ b) = Blob_size a + Blob_size b.
Proof.
  intros Hb. induction a as [| c | c d s IHs IHd] using jsstring_ind2.
  - reflexivity.
  - simpl app. rewrite (Blob_size_cons_not_low c b Hb).
    rewrite (Blob_size_cons_not_low c [] I). simpl Blob_size. lia.
  - change ((c :: d :: s) ++ b) with (c :: d :: (s ++ b)).
    change ((d :: s) ++ b) with (d :: (s ++ b)) in IHd.
    rewrite !Blob_size_cons2.
    destruct (c <? 128); [lia|]. destruct (c <? 2048); [lia|].
    destruct (is_high_surrogate c); [|lia].
    destruct (is_low_surrogate d); lia.
Qed.

Lemma hex_digit_ascii d : 0 <= d < 16 -> hex_digit d < 128.
Proof. intros H. unfold hex_digit. destruct (d <? 10); lia. Qed.

Lemma unicode_escape_ascii c :
  Forall (fun x => x < 128) (unicode_escape c) /\ length (unicode_escape c) = 6%nat.
Proof.
  unfold unicode_escape. split; [|reflexivity].
  repeat constructor; try (vm_compute; reflexivity);
    apply hex_digit_ascii, Z.mod_pos_bound; lia.
Qed.

Lemma json_escape_cases c (rest : jsstring) :
  (exists esc, json_escape (c :: rest) = esc ++ json_escape rest
               /\ Forall (fun x => x < 128) esc /\ (1 <= length esc <= 6)%nat)
  \/ (exists d rest', rest = d :: rest' /\ is_high_surrogate c = true
                      /\ is_low_surrogate d = true
                      /\ json_escape (c :: rest) = c :: d :: json_escape rest')
  \/ (is_high_surrogate c = false /\ is_low_surrogate c = false
      /\ json_escape (c :: rest) = c :: json_escape rest).
Proof.
  pose proof (unicode_escape_ascii c) as [Hu Hl].
  assert (Hesc2 : forall x y : Z, x < 128 -> y < 128 ->
            exists esc, [x; y] ++ json_escape rest = esc ++ json_escape rest
                        /\ Forall (fun x => x < 128) esc /\ (1 <= length esc <= 6)%nat).
  { intros x y Hx Hy. exists [x; y]. split; [reflexivity|].
    split; [repeat constructor; assumption|simpl; lia]. }
  assert (Hescu : exists esc,
            unicode_escape c ++ json_escape rest = esc ++ json_escape rest
            /\ Forall (fun x => x < 128) esc /\ (1 <= length esc <= 6)%nat).
  { exists (unicode_escape c). split; [reflexivity|]. split; [exact Hu|lia]. }
  simpl json_escape.
  destruct (c =? 8); [left; apply Hesc2; lia|].
  destruct (c =? 9); [left; apply Hesc2; lia|].
  destruct (c =? 10); [left; apply Hesc2; lia|].
  destruct (c =? 12); [left; apply Hesc2; lia|].
  destruct (c =? 13); [left; apply Hesc2; lia|].
  destruct (c =? 34); [left; apply Hesc2; lia|].
  destruct (c =? 92); [left; apply Hesc2; lia|].
  destruct (c <? 32); [left; exact Hescu|].
  destruct (is_high_surrogate c) eqn:Hh.
  - destruct rest as [|d rest'].
    + left. exists (unicode_escape c). rewrite app_nil_r.
      split; [reflexivity|]. split; [exact Hu|lia].
    + destruct (is_low_surrogate d) eqn:Hd; [|left; exact Hescu].
      right. left. exists d, rest'. auto.
  - destruct (is_low_surrogate c) eqn:Hlow; [left; exact Hescu|].
    right. right. auto.
Qed.

(** The escaped text of a string takes between one and six bytes per code
    unit, and never starts in the middle of a surrogate pair. *)
Lemma json_escape_size (s : jsstring) :
  Z.of_nat (length s) <= Blob_size (json_escape s) <= 6 * Z.of_nat (length s)
  /\ starts_without_low_surrogate (json_escape s).
Proof.
  assert (Hstep : forall c rest,
            (Z.of_nat (length rest) <= Blob_size (json_escape rest)
               <= 6 * Z.of_nat (length rest)
             /\ starts_without_low_surrogate (json_escape rest)) ->
            (forall d rest', rest = d :: rest' ->
               Z.of_nat (length rest') <= Blob_size (json_escape rest')
                 <= 6 * Z.of_nat (length rest')) ->
            Z.of_nat (length (c :: rest)) <= Blob_size (json_escape (c :: rest))
              <= 6 * Z.of_nat (length (c :: rest))
            /\ starts_without_low_surrogate (json_escape (c :: rest))).
  { intros c rest [IHb IHs] IH2. rewrite length_cons, Nat2Z.inj_succ.
    destruct (json_escape_cases c rest)
      as [(esc & -> & Hascii & Hlen)
         |[(d & rest' & -> & Hh & Hd & ->)|(Hh & Hl & ->)]].
    - rewrite (Blob_size_ascii_prefix _ _ Hascii). split; [lia|].
      destruct esc as [|x esc]; [simpl in Hlen; lia|].
      apply Forall_cons in Hascii as [Hx _]. simpl.
      unfold is_low_surrogate. destruct (Z.leb_spec 56320 x); [lia|reflexivity].
    - specialize (IH2 d rest' eq_refl). rewrite Blob_size_cons2, Hh, Hd.
      unfold is_high_surrogate in Hh. apply andb_true_iff in Hh as [Hh1 Hh2].
      apply Z.leb_le in Hh1. apply Z.leb_le in Hh2.
      destruct (Z.ltb_spec c 128); [lia|]. destruct (Z.ltb_spec c 2048); [lia|].
      rewrite length_cons, Nat2Z.inj_succ. split; [lia|].
      simpl. unfold is_low_surrogate.
      destruct (Z.leb_spec 56320 c); [lia|reflexivity].
    - rewrite (Blob_size_cons_not_low c _ IHs). split; [|exact Hl].
      destruct (c <? 128); [lia|]. destruct (c <? 2048); lia. }
  induction s as [| c | c d s IHs IHd] using jsstring_ind2.
  - simpl. split; [lia|exact I].
  - apply Hstep; [simpl; split; [lia|exact I]|]. intros d rest' H. discriminate H.
  - apply Hstep; [exact IHd|]. intros d' rest' [= <- <-]. apply IHs.
Qed.

Lemma json_escape_plain (s : jsstring) :
  Forall plain_ascii s ->
  json_escape s = s /\ Blob_size s = Z.of_nat (length s).
Proof.
  induction 1 as [|c s [Hc1 [Hc2 Hc3]] _ [IHe IHb]]; [split; reflexivity|].
  split.
  - simpl json_escape.
    destruct (Z.eqb_spec c 8); [lia|]. destruct (Z.eqb_spec c 9); [lia|].
    destruct (Z.eqb_spec c 10); [lia|]. destruct (Z.eqb_spec c 12); [lia|].
    destruct (Z.eqb_spec c 13); [lia|]. destruct (Z.eqb_spec c 34); [lia|].
    destruct (Z.eqb_spec c 92); [lia|]. destruct (Z.ltb_spec c 32); [lia|].
    unfold is_high_surrogate, is_low_surrogate.
    destruct (Z.leb_spec 55296 c); [lia|]. destruct (Z.leb_spec 56320 c); [lia|].
    simpl. now rewrite IHe.
  - change (c :: s) with ([c] ++ s).
    rewrite Blob_size_ascii_prefix by (repeat constructor; lia).
    rewrite IHb, length_app. simpl. lia.
Qed.

Lemma Forall_ascii_closed (a : jsstring) :
  forallb (fun c => c <? 128) a = true -> Forall (fun c => c < 128) a.
Proof.
  intros H. apply Forall_forall. intros c Hc.
  apply list_elem_of_In in Hc. rewrite forallb_forall in H.
  apply Z.ltb_lt, H, Hc.
Qed.

Lemma json_tag_shape (t : TagEntry) :
  json_tag t
  = [123; 34; 110; 97; 109; 101; 34; 58; 34]
    ++ json_escape (name t)
    ++ [34; 44; 34; 99; 111; 110; 102; 105; 100; 101; 110; 99; 101; 34; 58; 34]
    ++ json_escape (confidence t) ++ [34; 125].
Proof.
  unfold json_tag, json_string.
  generalize (json_escape (name t)) (json_escape (confidence t)). intros a b.
  rewrite <- !app_assoc. vm_compute. reflexivity.
Qed.

Lemma Blob_size_json_tag (t : TagEntry) :
  Blob_size (json_tag t)
  = 27 + Blob_size (json_escape (name t)) + Blob_size (json_escape (confidence t)).
Proof.
  rewrite json_tag_shape.
  rewrite Blob_size_ascii_prefix by (apply Forall_ascii_closed; reflexivity).
  rewrite Blob_size_app by reflexivity.
  rewrite Blob_size_ascii_prefix by (apply Forall_ascii_closed; reflexivity).
  rewrite Blob_size_app by reflexivity.
  change (Blob_size [34; 125]) with 2. simpl length. lia.
Qed.

Lemma json_tag_starts_ascii (t : TagEntry) :
  starts_without_low_surrogate (json_tag t).
Proof. rewrite json_tag_shape. reflexivity. Qed.

Lemma Blob_size_json_join (tags : list TagEntry) :
  tags <> [] ->
  Blob_size (json_join (map json_tag tags))
  = Z.of_nat (length tags) - 1
    + foldr (fun t acc => Blob_size (json_tag t) + acc) 0 tags.
Proof.
  induction tags as [|t tags IH]; [congruence|]. intros _.
  destruct tags as [|t' tags].
  - cbn [map json_join foldr length]. lia.
  - change (json_join (map json_tag (t :: t' :: tags)))
      with (json_tag t ++ [44] ++ json_join (map json_tag (t' :: tags))).
    rewrite Blob_size_app by reflexivity.
    rewrite (Blob_size_ascii_prefix [44]) by (apply Forall_ascii_closed; reflexivity).
    rewrite IH by discriminate.
    cbn [foldr length]. lia.
Qed.

(** X14. The recorded size of a non-empty tag list is 28 bytes per tag and
    one more, plus what the names and confidence texts take: between one
    and six bytes per code unit, and exactly one when they are plain
    ASCII. The empty list would take 2 bytes. *)
Theorem calculateSize_bounds (tags : list TagEntry) :
  tags <> [] ->
  28 * Z.of_nat (length tags) + 1 + tags_code_units tags
    <= calculateSize tags
    <= 28 * Z.of_nat (length tags) + 1 + 6 * tags_code_units tags
  /\ (Forall (fun t => Forall plain_ascii (name t)
                       /\ Forall plain_ascii (confidence t)) tags ->
      calculateSize tags
      = 28 * Z.of_nat (length tags) + 1 + tags_code_units tags)
  /\ calculateSize [] = 2.
Proof.
  intros Hne.
  assert (Hsize : calculateSize tags
                  = 1 + Z.of_nat (length tags)
                    + foldr (fun t acc => Blob_size (json_tag t) + acc) 0 tags).
  { unfold calculateSize, JSON_stringify.
    change (js "[") with [91]. change (js "]") with [93].
    rewrite (Blob_size_ascii_prefix [91]) by (apply Forall_ascii_closed; reflexivity).
    rewrite Blob_size_app by reflexivity.
    rewrite Blob_size_json_join by exact Hne.
    change (Blob_size [93]) with 1. simpl length. lia. }
  rewrite Hsize. clear Hsize Hne. split; [|split; [|reflexivity]].
  - induction tags as [|t tags IH]; [cbn; lia|].
    cbn [foldr]. rewrite Blob_size_json_tag, length_cons, Nat2Z.inj_succ.
    unfold tags_code_units in *. cbn [foldr].
    destruct (json_escape_size (name t)) as [Hn _].
    destruct (json_escape_size (confidence t)) as [Hc _].
    rewrite Nat2Z.inj_add. lia.
  - intros Hplain. induction Hplain as [|t tags [Hn Hc] _ IH]; [cbn; lia|].
    cbn [foldr]. rewrite Blob_size_json_tag, length_cons, Nat2Z.inj_succ.
    unfold tags_code_units in *. cbn [foldr].
    destruct (json_escape_plain _ Hn) as [-> ->].
    destruct (json_escape_plain _ Hc) as [-> ->].
    rewrite Nat2Z.inj_add. lia.
Qed.

Lemma calculateSize_bounds_witness :
  scenario_tags <> []
  /\ 28 * Z.of_nat (length scenario_tags) + 1 + tags_code_units scenario_tags
       <= calculateSize scenario_tags
       <= 28 * Z.of_nat (length scenario_tags) + 1
          + 6 * tags_code_units scenario_tags.
Proof.
  assert (Hne : scenario_tags <> []) by (vm_compute; discriminate).
  split; [exact Hne|]. apply (calculateSize_bounds scenario_tags Hne).
Defined.

(** ** The tags already in the tag input *)

Lemma filter_nonempty_cons piece (l : list jsstring) :
  filter_nonempty (piece :: l)
  = match piece with [] => filter_nonempty l | _ => piece :: filter_nonempty l end.
Proof. destruct piece; reflexivity. Qed.

Lemma split_ws_runs_in_run (s : jsstring) :
  filter_nonempty (split_ws_runs true [] s)
  = filter_nonempty (split_ws_runs false [] s).
Proof. destruct s as [|c s]; [reflexivity|]. simpl. now destruct (is_whitespace c). Qed.

Lemma split_ws_runs_word in_run piece w (s : jsstring) :
  no_ws w -> w <> [] ->
  split_ws_runs in_run piece (w ++ s) = split_ws_runs false (piece ++ w) s.
Proof.
  intros Hw. revert in_run piece.
  induction Hw as [|c w Hc Hw IH]; intros in_run piece Hne; [congruence|].
  simpl. rewrite Hc. destruct w as [|c' w'].
  - reflexivity.
  - rewrite IH by discriminate. now rewrite <- app_assoc.
Qed.

Lemma split_ws_runs_leading pre (s : jsstring) :
  all_ws pre ->
  filter_nonempty (split_ws_runs false [] (pre ++ s))
  = filter_nonempty (split_ws_runs false [] s).
Proof.
  induction 1 as [|c pre Hc _ IH]; [reflexivity|].
  simpl. rewrite Hc, filter_nonempty_cons, split_ws_runs_in_run. exact IH.
Qed.

Lemma split_ws_runs_all_ws in_run (post : jsstring) :
  all_ws post -> filter_nonempty (split_ws_runs in_run [] post) = [].
Proof.
  intros H. revert in_run. induction H as [|c post Hc _ IH]; intros in_run.
  - reflexivity.
  - simpl. rewrite Hc. destruct in_run; [apply IH|].
    rewrite filter_nonempty_cons. apply IH.
Qed.

Lemma split_ws_runs_trailing in_run piece (s post : jsstring) :
  all_ws post -> (in_run = true -> piece = []) ->
  filter_nonempty (split_ws_runs in_run piece (s ++ post))
  = filter_nonempty (split_ws_runs in_run piece s).
Proof.
  intros Hpost. revert in_run piece.
  induction s as [|c s IH]; intros in_run piece Hrun.
  - simpl app. destruct Hpost as [|d post Hd Hpost]; [reflexivity|].
    simpl. rewrite Hd. destruct in_run.
    + rewrite (Hrun eq_refl). now rewrite split_ws_runs_all_ws.
    + rewrite filter_nonempty_cons, split_ws_runs_all_ws by exact Hpost.
      now destruct piece.
  - simpl. destruct (is_whitespace c).
    + destruct in_run; [now apply IH|].
      rewrite !filter_nonempty_cons, IH by reflexivity. reflexivity.
    + apply IH. discriminate.
Qed.

(** Trimming first makes no difference to the tokens. *)
Lemma getCurrentTags_words (value : jsstring) :
  getCurrentTags (Some value) = filter_nonempty (split_ws_runs false [] value).
Proof.
  destruct value as [|c value]; [reflexivity|].
  unfold getCurrentTags.
  destruct (trim_spec (c :: value)) as (pre & post & Heq & Hpre & Hpost & _).
  rewrite Heq at 2.
  rewrite split_ws_runs_leading by exact Hpre.
  now rewrite split_ws_runs_trailing by (exact Hpost || discriminate).
Qed.

Lemma split_ws_runs_pieces in_run piece (s : jsstring) :
  no_ws piece -> Forall no_ws (split_ws_runs in_run piece s).
Proof.
  revert in_run piece. induction s as [|c s IH]; intros in_run piece Hp.
  - repeat constructor. exact Hp.
  - simpl. destruct (is_whitespace c) eqn:Hc.
    + destruct in_run; [now apply IH|]. constructor; [exact Hp|].
      apply IH. constructor.
    + apply IH. apply Forall_app. split; [exact Hp|]. repeat constructor. exact Hc.
Qed.

Lemma getCurrentTags_word_then_rest w sep (rest : jsstring) :
  no_ws w -> w <> [] -> all_ws sep -> sep <> [] ->
  getCurrentTags (Some (w ++ sep ++ rest)) = w :: getCurrentTags (Some rest).
Proof.
  intros Hw Hne Hsep Hsne. rewrite !getCurrentTags_words.
  rewrite split_ws_runs_word by assumption. simpl app.
  destruct Hsep as [|c sep Hc Hsep]; [congruence|].
  simpl. rewrite Hc, filter_nonempty_cons.
  destruct w as [|x w]; [congruence|]. f_equal.
  rewrite split_ws_runs_in_run. now apply split_ws_runs_leading.
Qed.

(** X15. [getCurrentTags] reads the words of the tag input: every token is
    non-empty and free of whitespace; a missing, empty or blank input
    gives no token; leading whitespace is ignored; a word followed by
    whitespace is the first token, the rest giving the others; a single
    word is its own token. *)
Theorem getCurrentTags_tokens :
  (forall textarea,
     Forall (fun token => token <> [] /\ no_ws token) (getCurrentTags textarea))
  /\ getCurrentTags None = []
  /\ (forall blank, all_ws blank -> getCurrentTags (Some blank) = [])
  /\ (forall sep rest, all_ws sep ->
        getCurrentTags (Some (sep ++ rest)) = getCurrentTags (Some rest))
  /\ (forall w sep rest, no_ws w -> w <> [] -> all_ws sep -> sep <> [] ->
        getCurrentTags (Some (w ++ sep ++ rest))
        = w :: getCurrentTags (Some rest))
  /\ (forall w, no_ws w -> w <> [] -> getCurrentTags (Some w) = [w]).
Proof.
  split; [|split; [reflexivity|split; [|split; [|split]]]].
  - intros [value|]; [|constructor]. rewrite getCurrentTags_words.
    pose proof (split_ws_runs_pieces false [] value ltac:(constructor)) as Hp.
    unfold filter_nonempty. apply Forall_forall. intros token Hin.
    apply list_elem_of_In, filter_In in Hin as [Hin Hne].
    split.
    + intros ->. discriminate Hne.
    + rewrite Forall_forall in Hp. apply Hp. now apply list_elem_of_In.
  - intros blank Hb. rewrite getCurrentTags_words.
    now apply split_ws_runs_all_ws.
  - intros sep rest Hsep. rewrite !getCurrentTags_words.
    now apply split_ws_runs_leading.
  - apply getCurrentTags_word_then_rest.
  - intros w Hw Hne. rewrite getCurrentTags_words.
    rewrite <- (app_nil_r w) at 1. rewrite split_ws_runs_word by assumption.
    simpl. destruct w; [congruence|reflexivity].
Qed.

(** X16. Tags written one after the other, each followed by a space, are
    read back as they were written. *)
Theorem getCurrentTags_reads_back (words : list jsstring) :
  Forall (fun w => no_ws w /\ w <> []) words ->
  getCurrentTags (Some (concat (map (fun w => w ++ [32]) words))) = words.
Proof.
  induction 1 as [|w words [Hw Hne] _ IH]; [reflexivity|].
  cbn [map concat]. rewrite <- app_assoc.
  rewrite getCurrentTags_word_then_rest;
    [now rewrite IH|assumption|assumption|repeat constructor|discriminate].
Qed.

Lemma getCurrentTags_reads_back_witness :
  Forall (fun w => no_ws w /\ w <> []) [js "1girl"; js "long_hair"]
  /\ getCurrentTags (Some (js "1girl long_hair ")) = [js "1girl"; js "long_hair"].
Proof.
  assert (H : Forall (fun w => no_ws w /\ w <> []) [js "1girl"; js "long_hair"]).
  { repeat constructor; discriminate. }
  split; [exact H|].
  exact (getCurrentTags_reads_back [js "1girl"; js "long_hair"] H).
Defined.

(** ** Rendering from the cache and from the response *)

Lemma createTagItem_row_to_tag (row : Row) (currentTags : list jsstring) :
  createTagItem row currentTags
  = match row_to_tag row with
    | Some tag => Some <$> createTagItemFromData tag currentTags
    | None => Some None
    end.
Proof.
  unfold createTagItem, row_to_tag, createTagItemFromData.
  destruct (row_link row) as [link|], (row_confidence row) as [cell|];
    try reflexivity.
  simpl. destruct (encodeURIComponent (trim (replace_ws_runs false link)));
    reflexivity.
Qed.

Lemma createTagItemFromData_nonempty tag currentTags html :
  createTagItemFromData tag currentTags = Some html -> html <> [].
Proof.
  unfold createTagItemFromData.
  destruct (encodeURIComponent (name tag)); simpl; [|discriminate].
  intros [= <-]. discriminate.
Qed.

Lemma mapM_cons_option {A B} (f : A -> option B) x (l : list A) :
  mapM f (x :: l)
  = match f x with
    | Some y => match mapM f l with Some k => Some (y :: k) | None => None end
    | None => None
    end.
Proof. cbn. destruct (f x); [|reflexivity]. cbn. now destruct (mapM f l). Qed.

Lemma filter_Boolean_cons {A} (o : option A) (l : list (option A)) :
  filter_Boolean (o :: l)
  = match o with Some a => a :: filter_Boolean l | None => filter_Boolean l end.
Proof. now destruct o. Qed.

Lemma filter_truthy_cons (o : option jsstring) (l : list (option jsstring)) :
  filter_truthy (o :: l)
  = match o with
    | Some (c :: h) => (c :: h) :: filter_truthy l
    | _ => filter_truthy l
    end.
Proof. destruct o as [[|c h]|]; reflexivity. Qed.

Lemma render_items_agree (rows : list Row) (currentTags : list jsstring) :
  match mapM (fun tag => createTagItemFromData tag currentTags)
          (filter_Boolean (map row_to_tag rows)),
        mapM (fun row => createTagItem row currentTags) rows with
  | Some items, Some items' => filter_truthy items' = items
  | None, None => True
  | _, _ => False
  end.
Proof.
  induction rows as [|row rows IH]; [reflexivity|].
  rewrite map_cons, filter_Boolean_cons, (mapM_cons_option _ row).
  rewrite createTagItem_row_to_tag.
  destruct (row_to_tag row) as [tag|].
  - rewrite mapM_cons_option.
    destruct (createTagItemFromData tag currentTags) as [html|] eqn:Hitem;
      cbn [fmap option_fmap option_map]; [|exact I].
    apply createTagItemFromData_nonempty in Hitem.
    destruct (mapM _ (filter_Boolean (map row_to_tag rows))) as [items|],
             (mapM _ rows) as [items'|]; try exact IH.
    rewrite filter_truthy_cons. destruct html as [|c h]; [congruence|].
    now rewrite IH.
  - destruct (mapM _ (filter_Boolean (map row_to_tag rows))) as [items|],
             (mapM _ rows) as [items'|]; exact IH.
Qed.

(** X17. The panel built from the cached tags of a response is, code unit for
    code unit, the panel built from the response itself; and the one fails
    on an unpaired surrogate exactly when the other does. *)
Theorem cached_render_equals_fresh (host : Host) (html : jsstring)
    (rows : list Row) (currentTags : list jsstring) :
  DOMParser_rows host html = ParsedRows rows ->
  processCachedTags (parseTagData host html) currentTags
  = processSuggestedTags rows currentTags.
Proof.
  intros Hrows. unfold parseTagData. rewrite Hrows.
  unfold processCachedTags, processSuggestedTags.
  pose proof (render_items_agree rows currentTags) as H.
  destruct (mapM _ (filter_Boolean (map row_to_tag rows))) as [items|],
           (mapM _ rows) as [items'|]; cbn; try contradiction; [|reflexivity].
  now rewrite H.
Qed.

Lemma cached_render_equals_fresh_witness :
  DOMParser_rows sample_host sample_html = ParsedRows sample_rows
  /\ processCachedTags (parseTagData sample_host sample_html) [js "1girl"]
     = processSuggestedTags sample_rows [js "1girl"].
Proof.
  split; [reflexivity|].
  exact (cached_render_equals_fresh sample_host sample_html sample_rows
           [js "1girl"] eq_refl).
Defined.

(** ** encodeURIComponent *)

Lemma HEX_digit_unreserved d : 0 <= d < 16 -> uri_unreserved (HEX_digit d) = true.
Proof.
  intros Hd. unfold HEX_digit, uri_unreserved.
  destruct (Z.ltb_spec d 10);
    repeat match goal with
           | |- context [?a <=? ?b] => destruct (Z.leb_spec a b)
           end; try lia; reflexivity.
Qed.

Lemma percent_encode_safe cp :
  0 <= cp < 1114112 -> Forall uri_safe (percent_encode cp).
Proof.
  intros Hcp.
  assert (Hoct : forall b, 0 <= b < 256 -> Forall uri_safe (percent_octet b)).
  { intros b Hb. unfold percent_octet.
    constructor; [now right|].
    constructor; [left; apply HEX_digit_unreserved; Z.div_mod_to_equations; lia|].
    constructor; [left; apply HEX_digit_unreserved; Z.div_mod_to_equations; lia|].
    constructor. }
  unfold percent_encode, utf8_octets.
  destruct (Z.ltb_spec cp 128); [|destruct (Z.ltb_spec cp 2048);
    [|destruct (Z.ltb_spec cp 65536)]];
    cbn [map concat]; rewrite ?app_nil_r;
    repeat (apply Forall_app; split); apply Hoct;
    Z.div_mod_to_equations; lia.
Qed.

Lemma encodeURIComponent_cases c (rest : jsstring) :
  (exists pre, encodeURIComponent (c :: rest)
               = app pre <$> encodeURIComponent rest
               /\ (is_code_unit c -> Forall uri_safe pre)
               /\ (uri_unreserved c = true -> pre = [c]))
  \/ (exists d rest', rest = d :: rest' /\ uri_unreserved c = false
        /\ exists pre, encodeURIComponent (c :: rest)
                       = app pre <$> encodeURIComponent rest'
                       /\ (is_code_unit c -> is_code_unit d -> Forall uri_safe pre))
  \/ (encodeURIComponent (c :: rest) = None
      /\ uri_unreserved c = false
      /\ (is_high_surrogate c = true \/ is_low_surrogate c = true)).
Proof.
  cbn [encodeURIComponent].
  destruct (uri_unreserved c) eqn:Hu.
  { left. exists [c]. split; [reflexivity|]. split; [|reflexivity].
    intros _. constructor; [left; exact Hu|constructor]. }
  destruct (is_low_surrogate c) eqn:Hl; [right; right; auto|].
  destruct (is_high_surrogate c) eqn:Hh.
  - destruct rest as [|d rest']; [right; right; auto|].
    destruct (is_low_surrogate d) eqn:Hd; [|right; right; auto].
    right. left. exists d, rest'. split; [reflexivity|]. split; [reflexivity|].
    eexists. split; [reflexivity|]. intros Hc Hdr.
    apply percent_encode_safe.
    unfold is_high_surrogate, is_low_surrogate in *.
    apply andb_true_iff in Hh as [Hh1 Hh2]. apply andb_true_iff in Hd as [Hd1 Hd2].
    apply Z.leb_le in Hh1, Hh2, Hd1, Hd2. lia.
  - left. eexists. split; [reflexivity|]. split; [|discriminate].
    intros Hc. apply percent_encode_safe. unfold is_code_unit in Hc. lia.
Qed.

(** On a string of code units [encodeURIComponent] emits only unreserved
    characters and percent signs; it can only throw on a string that holds
    a surrogate; and it returns a string of unreserved characters as it
    is. *)
Lemma encodeURIComponent_output (s : jsstring) :
  (Forall is_code_unit s ->
   forall e, encodeURIComponent s = Some e -> Forall uri_safe e)
  /\ (Forall (fun c => is_high_surrogate c = false
                       /\ is_low_surrogate c = false) s ->
      is_Some (encodeURIComponent s))
  /\ (Forall (fun c => uri_unreserved c = true) s ->
      encodeURIComponent s = Some s).
Proof.
  split; [|split].
  - induction s as [| c | c d s IHs IHd] using jsstring_ind2.
    + intros _ e [= <-]. constructor.
    + intros Hs e. apply Forall_cons in Hs as [Hc _].
      destruct (encodeURIComponent_cases c [])
        as [(pre & -> & Hpre & _)|[(d & rest' & Hrest & _)|(-> & _)]];
        try discriminate.
      cbn. intros [= <-]. rewrite app_nil_r. auto.
    + intros Hs e. apply Forall_cons in Hs as [Hc Hs].
      pose proof Hs as Hs'. apply Forall_cons in Hs' as [Hd Hs'].
      destruct (encodeURIComponent_cases c (d :: s))
        as [(pre & -> & Hpre & _)
           |[(d' & rest' & [= <- <-] & _ & pre & -> & Hpre)|(-> & _)]];
        try discriminate.
      * destruct (encodeURIComponent (d :: s)) as [x|]; [|discriminate].
        cbn. intros [= <-]. apply Forall_app. split; [auto|]. now apply IHd.
      * destruct (encodeURIComponent s) as [x|]; [|discriminate].
        cbn. intros [= <-]. apply Forall_app. split; [auto|]. now apply IHs.
  - induction 1 as [|c s [Hh Hl] _ IH]; [cbn; eauto|].
    cbn [encodeURIComponent]. rewrite Hh, Hl. destruct IH as [x ->].
    destruct (uri_unreserved c); cbn; eauto.
  - induction 1 as [|c s Hc _ IH]; [reflexivity|].
    cbn [encodeURIComponent]. rewrite Hc, IH. reflexivity.
Qed.

Lemma mapM_is_Some_Forall {A B} (f : A -> option B) (l : list A) :
  Forall (fun x => is_Some (f x)) l -> is_Some (mapM f l).
Proof.
  induction 1 as [|x l [y Hy] _ [k Hk]]; [cbn; eauto|].
  rewrite mapM_cons_option, Hy, Hk. eauto.
Qed.

(** X18. Rendering cached tags fails only on a surrogate in a tag name: when
    no name holds one, the panel is returned, and it is the column around
    the items. *)
Theorem processCachedTags_returns (tagDataArray : list TagEntry)
    (currentTags : list jsstring) :
  Forall (fun tag => Forall (fun c => is_high_surrogate c = false
                                      /\ is_low_surrogate c = false) (name tag))
    tagDataArray ->
  exists items,
    processCachedTags tagDataArray currentTags
    = Some (createTagColumn (concat items))
    /\ Forall2 (fun tag item => createTagItemFromData tag currentTags = Some item)
          tagDataArray items.
Proof.
  intros Hnames.
  assert (Hall : Forall (fun tag => is_Some (createTagItemFromData tag currentTags))
                   tagDataArray).
  { eapply Forall_impl; [exact Hnames|]. intros tag Htag.
    destruct (encodeURIComponent_output (name tag)) as (_ & Hsome & _).
    destruct (Hsome Htag) as [e He].
    unfold createTagItemFromData. rewrite He. cbn. eauto. }
  destruct (mapM_is_Some_Forall _ _ Hall) as [items Hitems].
  exists items. unfold processCachedTags. rewrite Hitems. split; [reflexivity|].
  now apply mapM_Some in Hitems.
Qed.

(** ** The file name sent with the media *)

Lemma split_on_nonempty sep piece (s : jsstring) : split_on sep piece s <> [].
Proof.
  revert piece. induction s as [|c s IH]; intros piece; simpl; [discriminate|].
  destruct (c =? sep); [discriminate|apply IH].
Qed.

Lemma last_cons_nonempty {A} (x : A) (l : list A) d :
  l <> [] -> List.last (x :: l) d = List.last l d.
Proof. destruct l; [congruence|reflexivity]. Qed.

Lemma split_on_last sep piece (s : jsstring) :
  sep ∉ piece ->
  (sep ∉ List.last (split_on sep piece s) [])
  /\ exists dir, piece ++ s = dir ++ List.last (split_on sep piece s) []
                 /\ (dir = [] \/ exists d, dir = d ++ [sep]).
Proof.
  revert piece. induction s as [|c s IH]; intros piece Hp.
  - simpl. split; [exact Hp|]. exists []. split; [now rewrite app_nil_r|now left].
  - simpl. destruct (Z.eqb_spec c sep) as [->|Hne].
    + rewrite last_cons_nonempty by apply split_on_nonempty.
      destruct (IH [] ltac:(apply not_elem_of_nil)) as (Hl & dir & Heq & Hdir).
      split; [exact Hl|]. exists (piece ++ sep :: dir). split.
      * rewrite <- app_assoc. simpl. f_equal. f_equal. exact Heq.
      * right. destruct Hdir as [->|[d ->]].
        -- exists piece. reflexivity.
        -- exists (piece ++ sep :: d). now rewrite <- app_assoc.
    + destruct (IH (piece ++ [c])) as (Hl & dir & Heq & Hdir).
      { rewrite elem_of_app, elem_of_cons, elem_of_nil. intros [?|[?|[]]]; congruence. }
      split; [exact Hl|]. exists dir. split; [|exact Hdir].
      rewrite <- Heq, <- app_assoc. reflexivity.
Qed.

Lemma split_on_hd sep piece (s : jsstring) :
  sep ∉ piece ->
  (sep ∉ hd [] (split_on sep piece s))
  /\ exists q, piece ++ s = hd [] (split_on sep piece s) ++ q
               /\ (q = [] \/ exists q', q = sep :: q').
Proof.
  revert piece. induction s as [|c s IH]; intros piece Hp.
  - simpl. split; [exact Hp|]. exists []. split; [reflexivity|now left].
  - simpl. destruct (Z.eqb_spec c sep) as [->|Hne].
    + simpl. split; [exact Hp|]. exists (sep :: s). split; [reflexivity|eauto].
    + destruct (IH (piece ++ [c])) as (Hl & q & Heq & Hq).
      { rewrite elem_of_app, elem_of_cons, elem_of_nil. intros [?|[?|[]]]; congruence. }
      split; [exact Hl|]. exists q. split; [|exact Hq].
      rewrite <- Heq, <- app_assoc. reflexivity.
Qed.

(** X19. The file name is never empty and holds neither a slash nor a
    question mark: the URL is a directory part that is empty or ends in a
    slash, a base free of slashes and question marks, and a query that is
    empty or starts with a question mark; the file name is the base, or
    [image.jpg] when the base is empty. *)
Theorem fileName_of_url_spec (url : jsstring) :
  fileName_of_url url <> []
  /\ (47 ∉ fileName_of_url url) /\ (63 ∉ fileName_of_url url)
  /\ exists dir base query,
       url = dir ++ base ++ query
       /\ (dir = [] \/ exists d, dir = d ++ [47])
       /\ (query = [] \/ exists q, query = 63 :: q)
       /\ (47 ∉ base) /\ (63 ∉ base) /\ (47 ∉ query)
       /\ fileName_of_url url
          = match base with [] => js "image.jpg" | _ => base end.
Proof.
  unfold fileName_of_url.
  destruct (split_on_last 47 [] url ltac:(apply not_elem_of_nil))
    as (Hlast & dir & Hurl & Hdir).
  set (last_segment := List.last (split_on 47 [] url) []) in *.
  destruct (split_on_hd 63 [] last_segment ltac:(apply not_elem_of_nil))
    as (Hbase & query & Hseg & Hquery).
  set (base := hd [] (split_on 63 [] last_segment)) in *.
  simpl in Hurl, Hseg.
  assert (H47 : (47 ∉ base) /\ (47 ∉ query)).
  { rewrite Hseg in Hlast. now apply not_elem_of_app in Hlast. }
  destruct H47 as [H47b H47q].
  assert (Hdefault : js "image.jpg" <> [] /\ (47 ∉ js "image.jpg")
                     /\ (63 ∉ js "image.jpg")).
  { split; [discriminate|].
    split; intros Hin; apply list_elem_of_In in Hin; simpl in Hin;
      repeat (destruct Hin as [Hin|Hin]; [discriminate Hin|]); exact Hin. }
  destruct Hdefault as (Hd1 & Hd2 & Hd3).
  split; [destruct base; [exact Hd1|discriminate]|].
  split; [destruct base; [exact Hd2|exact H47b]|].
  split; [destruct base; [exact Hd3|exact Hbase]|].
  exists dir, base, query.
  split; [now rewrite Hurl, Hseg|]. split; [exact Hdir|]. split; [exact Hquery|].
  split; [exact H47b|]. split; [exact Hbase|]. split; [exact H47q|].
  now destruct base.
Qed.

(** ** The key of the earlier script *)

Lemma sanitize_eq a b :
  (if is_alnum a then a else 95) = (if is_alnum b then b else 95)
  <-> a = b \/ (is_alnum a = false /\ is_alnum b = false).
Proof.
  assert (H95 : is_alnum 95 = false) by reflexivity.
  destruct (is_alnum a) eqn:Ha, (is_alnum b) eqn:Hb; split; intros H.
  - now left.
  - destruct H as [?|[? ?]]; congruence.
  - subst a. congruence.
  - destruct H as [?|[? ?]]; congruence.
  - subst b. congruence.
  - destruct H as [?|[? ?]]; congruence.
  - now right.
  - reflexivity.
Qed.

(** X20. The earlier key has the length of the URL plus the eleven of its
    prefix and holds only letters, digits and underscores; two URLs get
    one key exactly when they have the same length and, place by place,
    the same character or two characters that are neither letter nor
    digit. *)
Theorem cache_key_charset_and_collisions (url url' : jsstring) :
  length (cache_key url) = (11 + length url)%nat
  /\ Forall (fun c => is_alnum c = true \/ c = 95) (cache_key url)
  /\ (cache_key url = cache_key url'
      <-> Forall2 (fun a b => a = b \/ (is_alnum a = false /\ is_alnum b = false))
            url url').
Proof.
  unfold cache_key. split; [|split].
  - rewrite length_app, length_map. reflexivity.
  - apply Forall_app. split.
    + apply Forall_forall. intros c Hc. apply list_elem_of_In in Hc. simpl in Hc.
      repeat (destruct Hc as [<-|Hc]; [vm_compute; auto|]). destruct Hc.
    + apply Forall_forall. intros c Hc. apply list_elem_of_In, in_map_iff in Hc.
      destruct Hc as (x & <- & _). destruct (is_alnum x) eqn:Hx; auto.
  - split.
    + intros H. apply app_inv_head in H. revert url' H.
      induction url as [|a url IH]; intros [|b url'] H; try discriminate.
      * constructor.
      * injection H as Hab H. constructor; [now apply sanitize_eq|now apply IH].
    + intros H. f_equal. induction H as [|a b url url' Hab _ IH]; [reflexivity|].
      simpl. f_equal; [now apply sanitize_eq|exact IH].
Qed.

(** ** The further statements at concrete inputs *)

Lemma scenario_store_records k record :
  scenario_store !! k = Some record ->
  record = record_A \/ record = record_B \/ record = record_C.
Proof.
  unfold scenario_store, store_put. rewrite !lookup_insert_Some, lookup_empty.
  intros H.
  destruct H as [[_ Heq]|[_ H]]; [auto|].
  destruct H as [[_ Heq]|[_ H]]; [auto|].
  destruct H as [[_ Heq]|[_ H]]; [auto|]. discriminate H.
Qed.

Lemma cleanup_restores_capacity_witness :
  keyPath_ok scenario_store
  /\ Z.of_nat (base.size (cleanupOldEntries scenario_cfg Healthy (fun _ => 20)
                            scenario_store).2)
     <= Z.max 0 (MAX_CACHE_SIZE scenario_cfg).
Proof.
  split; [exact scenario_store_keyPath_ok|].
  exact (cleanup_restores_capacity scenario_cfg (fun _ => 20) scenario_store
           scenario_store_keyPath_ok).
Defined.

Lemma cleanup_settles_witness :
  keyPath_ok scenario_store
  /\ cleanup_toDelete scenario_cfg (fun _ => 20)
       (index_openCursor
          (cleanupOldEntries scenario_cfg Healthy (fun _ => 20) scenario_store).2)
     = [].
Proof.
  split; [exact scenario_store_keyPath_ok|].
  apply (cleanup_settles scenario_cfg 20 scenario_store scenario_store_keyPath_ok).
Defined.

Lemma cleanup_noop_when_fresh_and_small_witness :
  Z.of_nat (base.size scenario_store) <= MAX_CACHE_SIZE CONFIG
  /\ (cleanupOldEntries CONFIG Healthy (fun _ => 20) scenario_store).2
     = scenario_store.
Proof.
  assert (H : Z.of_nat (base.size scenario_store) <= MAX_CACHE_SIZE CONFIG)
    by (vm_compute; discriminate).
  split; [exact H|].
  apply (cleanup_noop_when_fresh_and_small CONFIG Healthy (fun _ => 20)
           scenario_store H).
  intros k record i Hk.
  destruct (scenario_store_records k record Hk) as [-> | [-> | ->]];
    vm_compute; discriminate.
Defined.

(** A third write at time 20 into the store that holds A and B, with
    room for two. *)
Lemma set_survives_own_sweep_witness :
  let st := store_put record_B (store_put record_A ∅) in
  keyPath_ok st
  /\ parseTagData sample_host sample_html <> []
  /\ 1 <= MAX_CACHE_SIZE scenario_cfg
  /\ (set scenario_cfg sample_host Healthy Healthy 20 (fun _ => 20) (js "C")
        sample_html st).2 !! js "C"
     = Some record_C.
Proof.
  intros st.
  assert (Hk : keyPath_ok st)
    by (repeat apply keyPath_ok_store_put; apply keyPath_ok_empty).
  assert (Hne : parseTagData sample_host sample_html <> [])
    by (vm_compute; discriminate).
  assert (Hmax : 1 <= MAX_CACHE_SIZE scenario_cfg) by (vm_compute; discriminate).
  split; [exact Hk|]. split; [exact Hne|]. split; [exact Hmax|].
  apply (set_survives_own_sweep scenario_cfg sample_host 20 (fun _ => 20) Healthy
           (js "C") sample_html st Hk Hne Hmax).
  - intros k' r. unfold st, store_put. rewrite !lookup_insert_Some, lookup_empty.
    intros H _.
    destruct H as [[_ Heq]|[_ H]]; [subst r; vm_compute; reflexivity|].
    destruct H as [[_ Heq]|[_ H]]; [subst r; vm_compute; reflexivity|].
    discriminate H.
  - intros i. vm_compute. discriminate.
Defined.

Lemma clearAll_then_read_witness :
  30 <= 40 < 30 + MS_PER_DAY
  /\ (getStats Healthy 30 40 (clearAll Healthy scenario_store).2).1
     = Fulfilled [(js "entries", JNumber 0);
                  (js "totalSizeKB", JString (js "0.00"));
                  (js "oldestEntryAge", JNumber 0)].
Proof.
  assert (H : 30 <= 40 < 30 + MS_PER_DAY) by (unfold MS_PER_DAY; lia).
  split; [exact H|].
  apply (clearAll_then_read CONFIG scenario_store 30 40 H).
Defined.

Lemma first_write_reachable :
  reachable CONFIG sample_host
    (run CONFIG sample_host
       (CallSet Healthy Healthy 0 (fun _ => 0) (js "A") sample_html) ∅).
Proof. apply reachable_step, reachable_init. Qed.

Lemma first_write_lookup :
  run CONFIG sample_host
    (CallSet Healthy Healthy 0 (fun _ => 0) (js "A") sample_html) ∅ !! js "A"
  = Some record_A.
Proof. vm_compute. reflexivity. Qed.

Lemma reachable_records_wellformed_witness :
  size record_A = calculateSize (tags record_A)
  /\ Forall (fun tag => no_ws (name tag)) (tags record_A).
Proof.
  destruct (reachable_records_wellformed CONFIG sample_host _ (js "A") record_A
              first_write_reachable first_write_lookup)
    as (_ & _ & Hsize & _ & Hnames).
  split; [exact Hsize|exact Hnames].
Defined.

Lemma get_hit_is_nonempty_witness : tags record_A <> [].
Proof.
  apply (get_hit_is_nonempty CONFIG sample_host
           (run CONFIG sample_host
              (CallSet Healthy Healthy 0 (fun _ => 0) (js "A") sample_html) ∅)
           Healthy Healthy 5 (js "A") (tags record_A) first_write_reachable).
  vm_compute. reflexivity.
Defined.

Lemma set_confined_to_key_witness :
  js "A" <> js "C"
  /\ store_put record_B (store_put record_A ∅) !! js "A" = Some record_A.
Proof.
  assert (Hne : js "A" <> js "C") by discriminate.
  split; [exact Hne|].
  apply (set_confined_to_key CONFIG sample_host Healthy Healthy 20 (fun _ => 20)
           (js "C") sample_html (store_put record_B (store_put record_A ∅))
           (js "A") record_A Hne).
  vm_compute. reflexivity.
Defined.

Lemma processCachedTags_returns_witness :
  exists items,
    processCachedTags scenario_tags [js "1girl"]
    = Some (createTagColumn (concat items))
    /\ length items = 3%nat.
Proof.
  destruct (processCachedTags_returns scenario_tags [js "1girl"])
    as (items & Heq & Hitems).
  - repeat constructor.
  - exists items. split; [exact Heq|].
    apply Forall2_length in Hitems. rewrite <- Hitems. reflexivity.
Defined.
